(** * DumpTree: a directory tree report

    A shallow embedding of [DumpTree.py] and the properties of its
    traversal routine [print_tree] and of its entry point [main].

    - Python strings are sequences of Unicode code points: lists of [N],
      compared code point by code point as Python compares them.
    - The file system is seen through the three calls the traversal
      makes, [os.listdir], [os.path.isdir] and [os.path.getsize]; a run
      asks each of them at most once per path, so a record of three
      functions holds the answers a run is given.  A call that raises
      gives the [errno] of its [OSError].
    - The text sink is the list of the strings handed to [file.write],
      in order; a write succeeds.
    - [print_tree] takes the number of frames the call stack has room
      for, and raises [RecursionError] when there is none left, as the
      interpreter does.
    - [main] gives the calls it makes on the world, in order, and the way
      it ends. *)

From Stdlib Require Import String Ascii.
From Stdlib Require Import List NArith ZArith Bool Lia.
From Stdlib Require Import Sorting.Sorted Sorting.Permutation.
Import ListNotations.

Open Scope list_scope.

(* ################################################################# *)
(** * Part I: the program, and the notions its properties are stated with *)

(* ================================================================= *)
(** ** Python strings *)

Definition str := list N.

(** An ASCII literal of the source as a Python string. *)
Definition lit (s : string) : str := map N_of_ascii (list_ascii_of_string s).

(** The line feed written as ["\n"] in the source. *)
Definition nl : str := [10%N].

(** [a == b] on strings. *)
Fixpoint str_eqb (a b : str) : bool :=
  match a, b with
  | [], [] => true
  | x :: a', y :: b' => (x =? y)%N && str_eqb a' b'
  | _, _ => false
  end.

(** [a < b] on strings: lexicographic on code points. *)
Fixpoint str_ltb (a b : str) : bool :=
  match a, b with
  | _, [] => false
  | [], _ :: _ => true
  | x :: a', y :: b' => (x <? y)%N || ((x =? y)%N && str_ltb a' b')
  end.

(** [s.startswith(p)]. *)
Fixpoint startswith (s p : str) {struct p} : bool :=
  match p, s with
  | [], _ => true
  | _ :: _, [] => false
  | y :: p', x :: s' => (x =? y)%N && startswith s' p'
  end.

(** [s.endswith(p)]: the last [len(p)] code points of [s] are [p]. *)
Definition endswith (s p : str) : bool :=
  (length p <=? length s)%nat && str_eqb (skipn (length s - length p) s) p.

(** [sorted(l)] on a list of strings.  Python's sort is stable and
    compares with [<] only; so does this insertion sort. *)
Fixpoint insert_sorted (x : str) (l : list str) : list str :=
  match l with
  | [] => [x]
  | y :: l' => if str_ltb x y then x :: l else y :: insert_sorted x l'
  end.

Definition sorted (l : list str) : list str :=
  fold_left (fun acc x => insert_sorted x acc) l [].

(** [a <= b], as [not (b < a)]. *)
Definition str_le (a b : str) : Prop := str_ltb b a = false.
Definition str_lt (a b : str) : Prop := str_ltb a b = true.

(* ================================================================= *)
(** ** The operating system as the program sees it *)

Definition errno := N.

(** The exceptions that can leave [print_tree]: an [OSError] raised by a
    file system call, and the interpreter's [RecursionError] when the
    call stack is exhausted. *)
Inductive exn : Type :=
| OSError (code : errno)
| RecursionError.

(** What a file system call gives: a value, or the [errno] of the
    [OSError] it raises. *)
Inductive result (A : Type) : Type :=
| Ok (a : A)
| Err (code : errno).
Arguments Ok {A} a.
Arguments Err {A} code.

(** The three read-only calls of the traversal. [isdir] never raises. *)
Record FS : Type := {
  listdir : str -> result (list str);
  isdir   : str -> bool;
  getsize : str -> result N
}.

(** [os.path.join(a, b)] (POSIX). *)
Definition join (a b : str) : str :=
  if startswith b (lit "/") then b
  else if str_eqb a [] || endswith a (lit "/") then a ++ b
  else a ++ lit "/" ++ b.

(* ================================================================= *)
(** ** The sink and the outcome of a call *)

(** The strings written so far, one element per [file.write] call.
    This sink accepts every write; the file [main] opens, whose [write]
    can raise, is [textfile] below. *)
Definition sink := list str.

Definition write (file : sink) (s : str) : sink := file ++ [s].

(** The text of the file: the concatenation of what was written. *)
Definition content (file : sink) : str := concat file.

Inductive outcome : Type :=
| Normal
| Raised (e : exn).

(* ================================================================= *)
(** ** [print_tree] *)

(** Box-drawing literals of the source. *)
Definition box_up_right   : N := 0x2514%N.  (* U+2514 *)
Definition box_vert_right : N := 0x251C%N.  (* U+251C *)
Definition box_horiz      : N := 0x2500%N.  (* U+2500 *)
Definition box_vert       : N := 0x2502%N.  (* U+2502 *)
Definition space          : N := 32%N.

Definition connector_last : str := [box_up_right; box_horiz; box_horiz; space].
Definition connector_mid  : str := [box_vert_right; box_horiz; box_horiz; space].
Definition extension_last : str := [space; space; space; space].
Definition extension_mid  : str := [box_vert; space; space; space].

Definition excluded_names : list str :=
  [lit ".git"; lit ".idea"; lit "out"; lit "build"].
Definition excluded_suffixes : list str :=
  [lit ".class"; lit ".iml"].

(** The condition of the list comprehension of lines 9-10. *)
Definition retained (e : str) : bool :=
  negb (existsb (str_eqb e) excluded_names)
  && negb (existsb (endswith e) excluded_suffixes).

(** Lines 8-10: the entries of a listing that are rendered, in order. *)
Definition entries_of (names : list str) : list str :=
  filter retained (sorted names).

(** [i == len(entries) - 1], on Python integers. *)
Definition is_last (i n : Z) : bool := (i =? n - 1)%Z.

Definition connector (i n : Z) : str :=
  if is_last i n then connector_last else connector_mid.

Definition extension (i n : Z) : str :=
  if is_last i n then extension_last else extension_mid.

(** Lines 21-25: [except OSError] catches every failure of [getsize]. *)
Definition status (fs : FS) (path : str) : str :=
  match getsize fs path with
  | Ok size => if (size =? 0)%N then lit "[EMPTY]" else lit "[OK]"
  | Err _ => lit "[?]"
  end.

Definition dir_line (prefix conn entry : str) : str :=
  prefix ++ conn ++ entry ++ lit "/" ++ nl.

Definition file_line (prefix conn entry stat : str) : str :=
  prefix ++ conn ++ entry ++ lit " " ++ stat ++ nl.

(** [for i, x in enumerate(l): body], started at index [i]; an exception
    raised by the body leaves the loop. *)
Fixpoint for_enumerate {A : Type}
    (body : Z -> A -> sink -> sink * outcome)
    (i : Z) (l : list A) (file : sink) : sink * outcome :=
  match l with
  | [] => (file, Normal)
  | x :: l' =>
      match body i x file with
      | (file', Normal) => for_enumerate body (i + 1)%Z l' file'
      | aborted => aborted
      end
  end.

(** The body of the loop, lines 13-26; [rec] is the recursive call. *)
Definition visit (rec : str -> sink -> str -> sink * outcome)
    (fs : FS) (root prefix : str) (n : Z)
    (i : Z) (entry : str) (file : sink) : sink * outcome :=
  let path := join root entry in
  if isdir fs path then
    let file := write file (dir_line prefix (connector i n) entry) in
    rec path file (prefix ++ extension i n)
  else
    (write file (file_line prefix (connector i n) entry (status fs path)),
     Normal).

(** [print_tree(root, file, prefix)].  [depth] is the number of frames
    the call stack still has room for: a call that finds none raises
    [RecursionError].  The frames of the calls [print_tree] makes to the
    library are not counted: the interpreter can also raise
    [RecursionError] inside one of them, when the last frame is taken. *)
Fixpoint print_tree (depth : nat) (fs : FS)
    (root : str) (file : sink) (prefix : str) : sink * outcome :=
  match depth with
  | O => (file, Raised RecursionError)
  | S depth' =>
      match listdir fs root with
      | Err code => (file, Raised (OSError code))
      | Ok names =>
          let entries := entries_of names in
          for_enumerate
            (visit (print_tree depth' fs) fs root prefix
                   (Z.of_nat (length entries)))
            0%Z entries file
      end
  end.

(* ================================================================= *)
(** ** [main] *)

(** [datetime.now()], and [strftime("%Y-%m-%d %H:%M:%S")] on it: the
    fields in decimal, padded with zeros to four digits for the year and
    to two for the others (a year has at most four digits, the other
    fields at most two).  For a year below 1000 the C library may give
    fewer than four digits: [strftime] is the text for the clocks of
    [clock_valid] below. *)
Record datetime : Type := {
  year : N; month : N; day : N; hour : N; minute : N; second : N
}.

Definition digit (n : N) : N := (48 + n mod 10)%N.

Definition pad2 (n : N) : str := [digit (n / 10); digit n].

Definition pad4 (n : N) : str :=
  [digit (n / 1000); digit (n / 100); digit (n / 10); digit n].

Definition strftime (t : datetime) : str :=
  pad4 (year t) ++ lit "-" ++ pad2 (month t) ++ lit "-" ++ pad2 (day t)
  ++ lit " " ++ pad2 (hour t) ++ lit ":" ++ pad2 (minute t)
  ++ lit ":" ++ pad2 (second t).

Fixpoint take_while {A : Type} (f : A -> bool) (l : list A) : list A :=
  match l with
  | [] => []
  | x :: l' => if f x then x :: take_while f l' else []
  end.

(** [os.path.basename(p)]: what follows the last slash of [p]. *)
Definition basename (p : str) : str :=
  rev (take_while (fun c => negb (c =? 47)%N) (rev p)).

(** What a run of [main] is given: the command line, the clock, the
    answer of [os.path.abspath] (which depends on the working directory),
    whether [os.makedirs(p, exist_ok=True)] and
    [open(p, "w", encoding="utf-8")] succeed, the answers of the file
    system during the traversal, and the room of the call stack. *)
Record Env : Type := {
  argv : list str;
  now : datetime;
  abspath : str -> str;
  makedirs : str -> result unit;
  open_w : str -> result unit;
  fs : FS;
  recursion_limit : nat
}.

(** The calls by which [main] acts on the world, in order. *)
Inductive event : Type :=
| CallMakedirs (path : str) (exist_ok : bool)
| CallOpen (path mode encoding : str)
| CallWrite (s : str)
| CallClose
| CallPrint (s : str).

(** [sys.argv[1] if len(sys.argv) > 1 else "."]. *)
Definition root_arg (args : list str) : str :=
  if (1 <? Z.of_nat (length args))%Z then nth 1 args [] else lit ".".

Definition header (t : datetime) : str :=
  lit "Generated: " ++ strftime t ++ lit " (local)" ++ nl ++ nl.

(** [main()], over a sink that accepts every write and closes without
    error.  The [with] block closes the file on every way out; an
    exception skips the final [print].  [main_on_disk] below is the run
    on a disk, with a file whose writes and close can fail. *)
Definition main (env : Env) : list event * outcome :=
  let root := root_arg (argv env) in
  let outdir := join root (lit "docs/") in
  match makedirs env outdir with
  | Err code => ([CallMakedirs outdir true], Raised (OSError code))
  | Ok _ =>
      let outfile := join outdir (lit "project_tree.txt") in
      match open_w env outfile with
      | Err code =>
          ([CallMakedirs outdir true; CallOpen outfile (lit "w") (lit "utf-8")],
           Raised (OSError code))
      | Ok _ =>
          let f := write [] (header (now env)) in
          let root_name := basename (abspath env root) in
          let f := write f (root_name ++ lit "/" ++ nl) in
          match print_tree (recursion_limit env) (fs env) root f [] with
          | (f, Normal) =>
              ([CallMakedirs outdir true; CallOpen outfile (lit "w") (lit "utf-8")]
                 ++ map CallWrite f
                 ++ [CallClose; CallPrint (lit "Saved tree to " ++ outfile)],
               Normal)
          | (f, Raised x) =>
              ([CallMakedirs outdir true; CallOpen outfile (lit "w") (lit "utf-8")]
                 ++ map CallWrite f ++ [CallClose],
               Raised x)
          end
      end
  end.

(** The strings written to the file during a run, and its text. *)
Fixpoint written (t : list event) : sink :=
  match t with
  | [] => []
  | CallWrite s :: t' => s :: written t'
  | _ :: t' => written t'
  end.

Definition report (env : Env) : str := content (written (fst (main env))).

(** A text without its first line. *)
Fixpoint drop_first_line (s : str) : str :=
  match s with
  | [] => []
  | c :: s' => if (c =? 10)%N then s' else drop_first_line s'
  end.

(** The events and the outcome of a run, spelled out. *)
Definition main_shape (env : Env) : list event * outcome :=
  let root := root_arg (argv env) in
  let sep :=
    if str_eqb root [] || endswith root (lit "/") then [] else lit "/" in
  let outdir := root ++ sep ++ lit "docs/" in
  let outfile := root ++ sep ++ lit "docs/project_tree.txt" in
  let first_line :=
    lit "Generated: " ++ strftime (now env) ++ lit " (local)" in
  let root_name := basename (abspath env root) in
  let tree := print_tree (recursion_limit env) (fs env) root [] [] in
  match makedirs env outdir with
  | Err code => ([CallMakedirs outdir true], Raised (OSError code))
  | Ok _ =>
      match open_w env outfile with
      | Err code =>
          ([CallMakedirs outdir true; CallOpen outfile (lit "w") (lit "utf-8")],
           Raised (OSError code))
      | Ok _ =>
          ([CallMakedirs outdir true; CallOpen outfile (lit "w") (lit "utf-8");
            CallWrite (first_line ++ nl ++ nl);
            CallWrite (root_name ++ lit "/" ++ nl)]
             ++ map CallWrite (fst tree)
             ++ CallClose
             :: match snd tree with
                | Normal => [CallPrint (lit "Saved tree to " ++ outfile)]
                | Raised _ => []
                end,
           snd tree)
      end
  end.

(* ================================================================= *)
(** ** Lines, levels and entries *)

(** The line [print_tree] writes for [entry], found at index [i] among
    the [n] retained entries of [root]. *)
Definition entry_line (fs : FS) (root prefix : str) (n i : Z) (entry : str)
    : str :=
  if isdir fs (join root entry)
  then dir_line prefix (connector i n) entry
  else file_line prefix (connector i n) entry (status fs (join root entry)).

(** [enumerate(l)], counting from [i]. *)
Fixpoint enumerate_from {A : Type} (i : Z) (l : list A) : list (Z * A) :=
  match l with
  | [] => []
  | x :: l' => (i, x) :: enumerate_from (i + 1)%Z l'
  end.

(** A line belongs to the level rendered with [prefix] when a connector
    follows [prefix] in it; the lines of deeper levels carry an extension
    there. *)
Definition at_level (prefix w : str) : bool :=
  startswith w (prefix ++ connector_last)
  || startswith w (prefix ++ connector_mid).

Definition level_lines (prefix : str) (out : list str) : list str :=
  filter (at_level prefix) out.

(** What follows the name of an entry in its line. *)
Definition entry_tail (fs : FS) (root entry : str) : str :=
  if isdir fs (join root entry) then lit "/" ++ nl
  else lit " " ++ status fs (join root entry) ++ nl.

(** The lines of [out] that carry the last-entry connector after [prefix]. *)
Definition last_connector_lines (prefix : str) (out : list str) : list str :=
  filter (fun w => startswith w (prefix ++ connector_last)) out.

Definition is_extension (x : str) : Prop :=
  x = extension_last \/ x = extension_mid.

Definition is_connector (c : str) : Prop :=
  c = connector_last \/ c = connector_mid.

(** The three status marks, and the two shapes of the end of a line. *)
Definition is_status (s : str) : Prop :=
  s = lit "[EMPTY]" \/ s = lit "[OK]" \/ s = lit "[?]".

Definition is_tail (t : str) : Prop :=
  t = lit "/" ++ nl \/ exists s, is_status s /\ t = lit " " ++ s ++ nl.

(** The entries the filter removes, in the words of the comprehension:
    a name of the exclusion set, or a name ending with an excluded
    suffix. *)
Definition excluded (e : str) : Prop :=
  In e excluded_names
  \/ exists stem suffix, In suffix excluded_suffixes /\ e = stem ++ suffix.

(** The number of code points of a line before its connector. *)
Fixpoint indentation (w : str) : nat :=
  match w with
  | [] => O
  | c :: w' =>
      if (c =? box_up_right)%N || (c =? box_vert_right)%N then O
      else S (indentation w')
  end.

(** [w] is a line for the entry named [e], at some depth below a call
    that received [prefix]: the prefix, any number of extensions, a
    connector, the name, and the end of a directory line or of a file
    line. *)
Definition line_for (prefix e w : str) : Prop :=
  exists exts c t,
    Forall is_extension exts /\ is_connector c /\ is_tail t
    /\ w = prefix ++ concat exts ++ c ++ e ++ t.

(* ================================================================= *)
(** ** The directories a run enters *)

(** [descends fs root k dir]: [dir] is reached from [root] through [k]
    nested directories, each a retained entry of the one above: the
    directories [print_tree] enters, with their depth below [root]. *)
Inductive descends (fs : FS) (root : str) : nat -> str -> Prop :=
| descends_here : descends fs root 0 root
| descends_into k dir names e :
    descends fs root k dir ->
    listdir fs dir = Ok names ->
    In e (entries_of names) ->
    isdir fs (join dir e) = true ->
    descends fs root (S k) (join dir e).

(** [visited fs root prefix0 k dir prefix]: the same, with the prefix the
    call on [dir] receives when the call on [root] received [prefix0]. *)
Inductive visited (fs : FS) (root prefix0 : str)
    : nat -> str -> str -> Prop :=
| visited_here : visited fs root prefix0 0 root prefix0
| visited_into k dir prefix names i e :
    visited fs root prefix0 k dir prefix ->
    listdir fs dir = Ok names ->
    nth_error (entries_of names) i = Some e ->
    isdir fs (join dir e) = true ->
    visited fs root prefix0 (S k) (join dir e)
      (prefix ++ extension (Z.of_nat i)
                           (Z.of_nat (length (entries_of names)))).

(** [w] is the line of an entry of a directory the call on [root] enters. *)
Definition line_of_visit (fs : FS) (root prefix0 : str) (w : str) : Prop :=
  exists k dir prefix names i e,
    visited fs root prefix0 k dir prefix
    /\ listdir fs dir = Ok names
    /\ nth_error (entries_of names) i = Some e
    /\ w = entry_line fs dir prefix
             (Z.of_nat (length (entries_of names))) (Z.of_nat i) e.

(** The directories entered below [dir] form a finite tree: no chain of
    nested retained directories starting at [dir] goes on for ever. *)
Inductive finite_below (fs : FS) : str -> Prop :=
| finite_below_intro dir :
    (forall names e,
        listdir fs dir = Ok names ->
        In e (entries_of names) ->
        isdir fs (join dir e) = true ->
        finite_below fs (join dir e)) ->
    finite_below fs dir.

(** A bound [h] on the number of nested directories at and below [dir]. *)
Fixpoint height_within (h : nat) (fs : FS) (dir : str) : bool :=
  match h with
  | O => false
  | S h' =>
      match listdir fs dir with
      | Err _ => true
      | Ok names =>
          forallb (fun e => negb (isdir fs (join dir e))
                            || height_within h' fs (join dir e))
                  (entries_of names)
      end
  end.

(** With room for [d0] frames the call on [dir] does not exhaust the
    stack, and more room changes nothing. *)
Definition stable (fs : FS) (d0 : nat) (dir : str) : Prop :=
  forall d, (d0 <= d)%nat ->
    forall file prefix,
      print_tree d fs dir file prefix = print_tree d0 fs dir file prefix
      /\ snd (print_tree d fs dir file prefix) <> Raised RecursionError.

(** Two file systems hold the same tree when they answer alike, up to
    the order in which [listdir] gives the names. *)
Definition same_listing (a b : result (list str)) : Prop :=
  match a, b with
  | Ok l1, Ok l2 => Permutation l1 l2
  | Err c1, Err c2 => c1 = c2
  | _, _ => False
  end.

Definition same_tree (fs1 fs2 : FS) : Prop :=
  (forall p, same_listing (listdir fs1 p) (listdir fs2 p))
  /\ (forall p, isdir fs1 p = isdir fs2 p)
  /\ (forall p, getsize fs1 p = getsize fs2 p).

(* ================================================================= *)
(** ** Sample file systems and runs *)

Fixpoint lookup {A : Type} (p : str) (table : list (str * A)) : option A :=
  match table with
  | [] => None
  | (q, a) :: table' => if str_eqb p q then Some a else lookup p table'
  end.

Definition ENOENT : errno := 2%N.
Definition EACCES : errno := 13%N.

(** A file system given by the answer of [listdir] for each directory
    and the answer of [getsize] for each other path. *)
Definition fs_of (dirs : list (str * result (list str)))
    (files : list (str * result N)) : FS := {|
  listdir := fun p =>
    match lookup p dirs with Some r => r | None => Err ENOENT end;
  isdir := fun p =>
    match lookup p dirs with Some _ => true | None => false end;
  getsize := fun p =>
    match lookup p files with Some r => r | None => Err ENOENT end
|}.

(** [root] holds [a.txt] (empty), [b.txt] (5 bytes), [sub/] with [c.txt]
    (3 bytes), and two build artifacts. *)
Definition scenario_fs : FS :=
  fs_of
    [ (lit "root", Ok [lit "sub"; lit "build"; lit "b.txt"; lit "X.class";
                       lit "a.txt"]);
      (lit "root/sub", Ok [lit "c.txt"]);
      (lit "root/build", Ok [lit "out.o"]) ]
    [ (lit "root/a.txt", Ok 0%N);
      (lit "root/b.txt", Ok 5%N);
      (lit "root/X.class", Ok 9%N);
      (lit "root/sub/c.txt", Ok 3%N);
      (lit "root/build/out.o", Ok 7%N) ].

(** [r] holds a directory [a/] that cannot be listed, and a file [b]. *)
Definition unreadable_fs : FS :=
  fs_of
    [ (lit "r", Ok [lit "a"; lit "b"]);
      (lit "r/a", Err EACCES) ]
    [ (lit "r/b", Ok 1%N) ].

(** [r] holds only [build/] and [.git/]. *)
Definition artifacts_fs : FS :=
  fs_of
    [ (lit "r", Ok [lit "build"; lit ".git"]);
      (lit "r/build", Ok []);
      (lit "r/.git", Ok []) ]
    [].

(** [r] holds [x] (empty), [y] whose size cannot be read, and [z]. *)
Definition vanished_fs : FS :=
  fs_of
    [ (lit "r", Ok [lit "z"; lit "y"; lit "x"]) ]
    [ (lit "r/x", Ok 0%N);
      (lit "r/y", Err ENOENT);
      (lit "r/z", Ok 12%N) ].

Ltac solve_NoDup :=
  repeat (constructor;
          [ vm_compute; intros H;
            repeat (destruct H as [H | H]; [discriminate H|]); exact H | ]);
  constructor.

Definition sample_env (fs0 : FS) (t : datetime) : Env := {|
  argv := [lit "DumpTree.py"; lit "root"];
  now := t;
  abspath := fun p => lit "/home/u/" ++ p;
  makedirs := fun _ => Ok tt;
  open_w := fun _ => Ok tt;
  fs := fs0;
  recursion_limit := 1000
|}.

Definition sample_time : datetime :=
  {| year := 2024; month := 3; day := 9; hour := 14; minute := 5;
     second := 59 |}.

(** [scenario_fs], its listings given in another order. *)
Definition scenario_fs_reordered : FS :=
  fs_of
    [ (lit "root", Ok [lit "a.txt"; lit "X.class"; lit "b.txt"; lit "build";
                       lit "sub"]);
      (lit "root/sub", Ok [lit "c.txt"]);
      (lit "root/build", Ok [lit "out.o"]) ]
    [ (lit "root/a.txt", Ok 0%N);
      (lit "root/b.txt", Ok 5%N);
      (lit "root/X.class", Ok 9%N);
      (lit "root/sub/c.txt", Ok 3%N);
      (lit "root/build/out.o", Ok 7%N) ].

Definition later_time : datetime :=
  {| year := 2025; month := 11; day := 30; hour := 0; minute := 0;
     second := 1 |}.

(** A tree without a bottom: every path is a directory that holds the
    one directory [l].  No disk holds such a tree; along a symbolic link
    to the directory above, the operating system refuses the path after
    some forty levels. *)
Definition loop_fs : FS := {|
  listdir := fun _ => Ok [lit "l"];
  isdir := fun _ => true;
  getsize := fun _ => Ok 0%N
|}.

(* ================================================================= *)
(** ** Notions for the further properties *)

(** The line of the entry [snd ie], found at index [fst ie], followed
    by everything a call with room for [d] frames writes below it. *)
Definition subtree_lines (d : nat) (fs : FS) (root prefix : str) (n : Z)
    (ie : Z * str) : list str :=
  entry_line fs root prefix n (fst ie) (snd ie)
  :: (if isdir fs (join root (snd ie))
      then fst (print_tree d fs (join root (snd ie)) []
                  (prefix ++ extension (fst ie) n))
      else []).

(** The questions a run puts to the file system. *)
Inductive query : Type :=
| AskList (p : str)
| AskIsdir (p : str)
| AskSize (p : str).

Definition same_answer (fs1 fs2 : FS) (q : query) : Prop :=
  match q with
  | AskList p => listdir fs1 p = listdir fs2 p
  | AskIsdir p => isdir fs1 p = isdir fs2 p
  | AskSize p => getsize fs1 p = getsize fs2 p
  end.

(** [asks fs d root q]: the call on [root] with room for [d] frames
    puts the question [q]: the listing of [root]; then, for each
    retained entry that the loop reaches (the entries before it were
    rendered without an exception), whether it is a directory, its size
    when it is not, and what the recursive call on it asks when it is. *)
Inductive asks (fs : FS) : nat -> str -> query -> Prop :=
| asks_listing d root :
    asks fs (S d) root (AskList root)
| asks_isdir d root names before e rest file prefix file' :
    listdir fs root = Ok names ->
    entries_of names = before ++ e :: rest ->
    for_enumerate
      (visit (print_tree d fs) fs root prefix
             (Z.of_nat (length (entries_of names))))
      0%Z before file = (file', Normal) ->
    asks fs (S d) root (AskIsdir (join root e))
| asks_size d root names before e rest file prefix file' :
    listdir fs root = Ok names ->
    entries_of names = before ++ e :: rest ->
    for_enumerate
      (visit (print_tree d fs) fs root prefix
             (Z.of_nat (length (entries_of names))))
      0%Z before file = (file', Normal) ->
    isdir fs (join root e) = false ->
    asks fs (S d) root (AskSize (join root e))
| asks_below d root names before e rest file prefix file' q :
    listdir fs root = Ok names ->
    entries_of names = before ++ e :: rest ->
    for_enumerate
      (visit (print_tree d fs) fs root prefix
             (Z.of_nat (length (entries_of names))))
      0%Z before file = (file', Normal) ->
    isdir fs (join root e) = true ->
    asks fs d (join root e) q ->
    asks fs (S d) root q.

(** [r] holds [a/], which cannot be listed, and [c/]; the two differ
    in what [c/] holds. *)
Definition cut_short_fs (inside_c : list str) : FS :=
  fs_of
    [ (lit "r", Ok [lit "a"; lit "c"]);
      (lit "r/a", Err EACCES);
      (lit "r/c", Ok inside_c) ]
    [].

(** Two lines that are equal, or differ in their status mark only. *)
Definition same_up_to_status (w1 w2 : str) : Prop :=
  w1 = w2
  \/ exists head s1 s2,
       is_status s1 /\ is_status s2
       /\ w1 = head ++ s1 ++ nl /\ w2 = head ++ s2 ++ nl.

(** [scenario_fs], with other sizes. *)
Definition resized_fs : FS :=
  fs_of
    [ (lit "root", Ok [lit "sub"; lit "build"; lit "b.txt"; lit "X.class";
                       lit "a.txt"]);
      (lit "root/sub", Ok [lit "c.txt"]);
      (lit "root/build", Ok [lit "out.o"]) ]
    [ (lit "root/a.txt", Ok 4%N);
      (lit "root/b.txt", Err EACCES);
      (lit "root/sub/c.txt", Ok 0%N) ].

(** [root] after a run of [main] on it: [docs/] holds the report. *)
Definition docs_fs : FS :=
  fs_of
    [ (lit "root", Ok [lit "docs"; lit "a.txt"]);
      (lit "root/docs", Ok [lit "project_tree.txt"]) ]
    [ (lit "root/a.txt", Ok 7%N);
      (lit "root/docs/project_tree.txt", Ok 0%N) ].

(* ================================================================= *)
(** ** [main] on a disk, with a file that can refuse a write *)

(** *** The encoding of the file

    [str.encode("utf-8")]: the bytes of a string, or nothing when a code
    point is a surrogate, for which [write] raises
    [UnicodeEncodeError]. *)
Definition utf8_char (c : N) : option (list N) :=
  if (c <? 0x80)%N then Some [c]
  else if (c <? 0x800)%N then
    Some [(0xC0 + c / 0x40)%N; (0x80 + c mod 0x40)%N]
  else if (0xD800 <=? c)%N && (c <=? 0xDFFF)%N then None
  else if (c <? 0x10000)%N then
    Some [(0xE0 + c / 0x1000)%N; (0x80 + (c / 0x40) mod 0x40)%N;
          (0x80 + c mod 0x40)%N]
  else if (c <? 0x110000)%N then
    Some [(0xF0 + c / 0x40000)%N; (0x80 + (c / 0x1000) mod 0x40)%N;
          (0x80 + (c / 0x40) mod 0x40)%N; (0x80 + c mod 0x40)%N]
  else None.

Fixpoint utf8 (s : str) : option (list N) :=
  match s with
  | [] => Some []
  | c :: s' =>
      match utf8_char c, utf8 s' with
      | Some b, Some bs => Some (b ++ bs)
      | _, _ => None
      end
  end.

(** *** The disk

    A path names a place by its components: the parts between slashes,
    the empty ones and [.] left out, after a leading [/] for an absolute
    path, as on a POSIX system (the one [join] is of).  [..] is kept as a
    component, and no place is a link to another: two paths with
    different components are two places. *)
Fixpoint split_slash (p : str) : list str :=
  match p with
  | [] => [[]]
  | c :: p' =>
      if (c =? 47)%N then [] :: split_slash p'
      else match split_slash p' with
           | [] => [[c]]
           | x :: xs => (c :: x) :: xs
           end
  end.

Definition is_component (c : str) : bool :=
  negb (str_eqb c [] || str_eqb c (lit ".")).

Definition components (p : str) : list str :=
  filter is_component (split_slash p).

Definition path_key (p : str) : list str :=
  (if startswith p (lit "/") then [lit "/"] else []) ++ components p.

Fixpoint key_eqb (a b : list str) : bool :=
  match a, b with
  | [], [] => true
  | x :: a', y :: b' => str_eqb x y && key_eqb a' b'
  | _, _ => false
  end.

Inductive node : Type :=
| Directory
| Regular (data : list N).

(** What the disk holds at each place; the working directory (no
    component) and the root directory are always there. *)
Definition disk := list str -> option node.

Definition node_at (d : disk) (k : list str) : option node :=
  if key_eqb k [] || key_eqb k [lit "/"] then Some Directory else d k.

Definition put (d : disk) (k : list str) (n : node) : disk :=
  fun k' => if key_eqb k' k then Some n else d k'.

Definition EEXIST : errno := 17%N.
Definition ENOTDIR : errno := 20%N.
Definition EISDIR : errno := 21%N.
Definition ENOSPC : errno := 28%N.

(** The places on the way to [k], from the first component to [k]. *)
Fixpoint places_to (above : list str) (k : list str) : list (list str) :=
  match k with
  | [] => []
  | c :: k' => (above ++ [c]) :: places_to (above ++ [c]) k'
  end.

(** [os.makedirs(p, exist_ok=True)] on the disk: each place on the way
    is kept when it is a directory and made one when nothing is there;
    a regular file in the way raises [NotADirectoryError], or
    [FileExistsError] at the last place. *)
Fixpoint make_all (d : disk) (ks : list (list str)) : result disk :=
  match ks with
  | [] => Ok d
  | k :: ks' =>
      match node_at d k with
      | Some (Regular _) =>
          Err (match ks' with [] => EEXIST | _ :: _ => ENOTDIR end)
      | Some Directory => make_all d ks'
      | None => make_all (put d k Directory) ks'
      end
  end.

(** [os.makedirs(p, exist_ok=True)]: it fails when the environment
    says so (no permission, ...), here before it has made a directory,
    or when a regular file is in the way. *)
Definition os_makedirs (env : Env) (d : disk) (p : str) : result disk :=
  match makedirs env p with
  | Err code => Err code
  | Ok _ => make_all d (places_to [] (path_key p))
  end.

(** [open(p, "w", encoding="utf-8")]: it fails when the environment says
    so, when [p] is a directory, or when the directory that is to hold
    it is not there; otherwise the file is there afterwards, empty. *)
Definition os_open_w (env : Env) (d : disk) (p : str) : result disk :=
  match open_w env p with
  | Err code => Err code
  | Ok _ =>
      match node_at d (path_key p) with
      | Some Directory => Err EISDIR
      | _ =>
          match node_at d (removelast (path_key p)) with
          | Some Directory => Ok (put d (path_key p) (Regular []))
          | Some (Regular _) => Err ENOTDIR
          | None => Err ENOENT
          end
      end
  end.

(** *** The file

    The device behind the file: which write raises [OSError] (a flush
    that fails, counted from the first write), whether the final close
    does, and how many of the bytes handed over it holds once a write or
    the close has failed. *)
Record Device : Type := {
  write_error : nat -> option errno;
  close_error : option errno;
  kept : nat
}.

(** The open file: the strings [write] was called with, and the bytes
    of those that could be encoded. *)
Record textfile : Type := {
  calls : sink;
  stored : list N
}.

Inductive write_exn : Type :=
| UnicodeEncodeError
| WriteOSError (code : errno).

(** [file.write(s)] on the file [main] opens: the string is encoded
    when it is written, line feeds as they are; the bytes reach the
    device then or later, at the latest when the file is closed. *)
Definition file_write (dev : Device) (f : textfile) (s : str)
    : textfile * option write_exn :=
  match utf8 s with
  | None =>
      ({| calls := calls f ++ [s]; stored := stored f |},
       Some UnicodeEncodeError)
  | Some b =>
      ({| calls := calls f ++ [s]; stored := stored f ++ b |},
       match write_error dev (length (calls f)) with
       | Some code => Some (WriteOSError code)
       | None => None
       end)
  end.

(** How a call of [print_tree] on such a file ends: it returns, or an
    exception of its own calls leaves it, or one raised by a write. *)
Inductive ending : Type :=
| Returned
| Threw (e : exn)
| WriteThrew (e : write_exn).

Fixpoint for_enumerate_on {A : Type}
    (body : Z -> A -> textfile -> textfile * ending)
    (i : Z) (l : list A) (file : textfile) : textfile * ending :=
  match l with
  | [] => (file, Returned)
  | x :: l' =>
      match body i x file with
      | (file', Returned) => for_enumerate_on body (i + 1)%Z l' file'
      | aborted => aborted
      end
  end.

(** The body of the loop, lines 13-26, on a file whose [write] can
    raise: neither write is inside the [try]. *)
Definition visit_on (rec : str -> textfile -> str -> textfile * ending)
    (dev : Device) (fs : FS) (root prefix : str) (n : Z)
    (i : Z) (entry : str) (file : textfile) : textfile * ending :=
  let path := join root entry in
  if isdir fs path then
    match file_write dev file (dir_line prefix (connector i n) entry) with
    | (file, Some e) => (file, WriteThrew e)
    | (file, None) => rec path file (prefix ++ extension i n)
    end
  else
    match
      file_write dev file
        (file_line prefix (connector i n) entry (status fs path))
    with
    | (file, Some e) => (file, WriteThrew e)
    | (file, None) => (file, Returned)
    end.

(** [print_tree(root, file, prefix)] on such a file. *)
Fixpoint print_tree_on (depth : nat) (dev : Device) (fs : FS)
    (root : str) (file : textfile) (prefix : str) : textfile * ending :=
  match depth with
  | O => (file, Threw RecursionError)
  | S depth' =>
      match listdir fs root with
      | Err code => (file, Threw (OSError code))
      | Ok names =>
          let entries := entries_of names in
          for_enumerate_on
            (visit_on (print_tree_on depth' dev fs) dev fs root prefix
                      (Z.of_nat (length entries)))
            0%Z entries file
      end
  end.

(** What an ending is over a sink that accepts every write. *)
Definition ideal (e : ending) : option outcome :=
  match e with
  | Returned => Some Normal
  | Threw x => Some (Raised x)
  | WriteThrew _ => None
  end.

(** The bytes stored are the encoding of what was written. *)
Definition consistent (f : textfile) : Prop :=
  utf8 (content (calls f)) = Some (stored f).

(** *** The run *)

(** How a run of [main] ends, by the call that raised; [Done] when
    none did up to the close of the file, and [print] is called. *)
Inductive main_ending : Type :=
| Done
| MakedirsRaised (code : errno)
| OpenRaised (code : errno)
| TraversalRaised (e : exn)
| WriteRaised (e : write_exn)
| CloseRaised (code : errno).

Record run : Type := {
  events : list event;
  how : main_ending;
  disk_after : disk
}.

(** The ending of a run in which no input or output call failed. *)
Definition ended (o : outcome) : main_ending :=
  match o with
  | Normal => Done
  | Raised e => TraversalRaised e
  end.

(** The end of the [with] block: the file is closed whatever happened
    in the block, and an exception of the close replaces the one that
    was on its way.  The device holds all the bytes unless a write or
    the close failed on it. *)
Definition close_file (dev : Device) (d : disk) (outdir outfile : str)
    (f : textfile) (body : ending) : run :=
  let device_failed :=
    match body, close_error dev with
    | WriteThrew (WriteOSError _), _ => true
    | _, Some _ => true
    | _, None => false
    end in
  let data :=
    if device_failed then firstn (kept dev) (stored f) else stored f in
  let h :=
    match close_error dev with
    | Some code => CloseRaised code
    | None =>
        match body with
        | Returned => Done
        | Threw e => TraversalRaised e
        | WriteThrew e => WriteRaised e
        end
    end in
  {| events :=
       [CallMakedirs outdir true; CallOpen outfile (lit "w") (lit "utf-8")]
       ++ map CallWrite (calls f)
       ++ CallClose
       :: match h with
          | Done => [CallPrint (lit "Saved tree to " ++ outfile)]
          | _ => []
          end;
     how := h;
     disk_after := put d (path_key outfile) (Regular data) |}.

(** The body of the [with] block, lines 35-40, on the file just
    opened. *)
Definition with_block (env : Env) (dev : Device) (root : str)
    : textfile * ending :=
  let f := {| calls := []; stored := [] |} in
  match file_write dev f (header (now env)) with
  | (f, Some e) => (f, WriteThrew e)
  | (f, None) =>
      let root_name := basename (abspath env root) in
      match file_write dev f (root_name ++ lit "/" ++ nl) with
      | (f, Some e) => (f, WriteThrew e)
      | (f, None) =>
          print_tree_on (recursion_limit env) dev (fs env) root f []
      end
  end.

(** [main()], on the disk [d] and with the device [dev] behind the
    file it opens. *)
Definition main_on_disk (env : Env) (dev : Device) (d : disk) : run :=
  let root := root_arg (argv env) in
  let outdir := join root (lit "docs/") in
  match os_makedirs env d outdir with
  | Err code =>
      {| events := [CallMakedirs outdir true];
         how := MakedirsRaised code;
         disk_after := d |}
  | Ok d1 =>
      let outfile := join outdir (lit "project_tree.txt") in
      match os_open_w env d1 outfile with
      | Err code =>
          {| events := [CallMakedirs outdir true;
                        CallOpen outfile (lit "w") (lit "utf-8")];
             how := OpenRaised code;
             disk_after := d1 |}
      | Ok d2 =>
          match with_block env dev root with
          | (f, e) => close_file dev d2 outdir outfile f e
          end
      end
  end.

(** A clock of our era: a year of four digits, the other fields in
    their ranges. *)
Definition clock_valid (t : datetime) : Prop :=
  (1000 <= year t <= 9999)%N /\ (1 <= month t <= 12)%N
  /\ (1 <= day t <= 31)%N /\ (hour t <= 23)%N /\ (minute t <= 59)%N
  /\ (second t <= 59)%N.

(** A device that never fails, an empty disk, and a disk where [docs]
    under [root] is a regular file. *)
Definition sound_device : Device :=
  {| write_error := fun _ => None; close_error := None; kept := 0 |}.

(** A device with no room: the text waits in the buffer of the file,
    and the flush at the close fails. *)
Definition full_device : Device :=
  {| write_error := fun _ => None; close_error := Some ENOSPC; kept := 0 |}.

Definition empty_disk : disk := fun _ => None.

Definition docs_is_a_file : disk :=
  put (put empty_disk [lit "root"] Directory)
      [lit "root"; lit "docs"] (Regular [104%N; 105%N]).

(** A disk that already holds a report. *)
Definition old_report_disk : disk :=
  put (put (put empty_disk [lit "root"] Directory)
           [lit "root"; lit "docs"] Directory)
      [lit "root"; lit "docs"; lit "project_tree.txt"]
      (Regular [111%N; 108%N; 100%N]).

(** A run whose root path is the empty string. *)
Definition empty_root_env : Env := {|
  argv := [lit "DumpTree.py"; []];
  now := sample_time;
  abspath := fun p => lit "/home/u/" ++ p;
  makedirs := fun _ => Ok tt;
  open_w := fun _ => Ok tt;
  fs := scenario_fs;
  recursion_limit := 1000
|}.

(** [root] holds a file whose name is not Unicode text: the byte 0xFF,
    which [os.listdir] gives as the surrogate U+DCFF. *)
Definition surrogate_fs : FS :=
  fs_of
    [ (lit "root", Ok [[0xDCFF%N]; lit "a.txt"]) ]
    [ (lit "root/a.txt", Ok 1%N) ].

(* ################################################################# *)
(** * Part II: lemmas and theorems *)

(* ================================================================= *)
(** ** Facts about strings *)

Lemma str_eqb_eq (a b : str) : str_eqb a b = true <-> a = b.
Proof.
  revert b; induction a as [|x a IH]; intros [|y b]; simpl;
    try (split; [discriminate | discriminate]); try tauto.
  rewrite andb_true_iff, N.eqb_eq, IH.
  split; [intros [-> ->]; reflexivity | intros H; inversion H; auto].
Qed.

Lemma str_eqb_refl (a : str) : str_eqb a a = true.
Proof. apply str_eqb_eq; reflexivity. Qed.

Lemma str_ltb_irrefl (a : str) : str_ltb a a = false.
Proof.
  induction a as [|x a IH]; simpl; auto.
  rewrite N.ltb_irrefl, N.eqb_refl, IH; reflexivity.
Qed.

Lemma str_ltb_trans (a b c : str) :
  str_ltb a b = true -> str_ltb b c = true -> str_ltb a c = true.
Proof.
  revert b c; induction a as [|x a IH]; intros [|y b] [|z c]; simpl;
    try discriminate; auto.
  rewrite !orb_true_iff, !andb_true_iff, !N.ltb_lt, !N.eqb_eq.
  intros [Hxy | [-> Hab]] [Hyz | [-> Hbc]].
  - left; lia.
  - left; lia.
  - left; lia.
  - right; split; [reflexivity | eauto].
Qed.

Lemma str_ltb_total (a b : str) :
  str_ltb a b = false -> str_ltb b a = false -> a = b.
Proof.
  revert b; induction a as [|x a IH]; intros [|y b]; simpl;
    try discriminate; auto.
  rewrite !orb_false_iff, !andb_false_iff, !N.ltb_ge, !N.eqb_neq.
  intros [Hyx Ha] [Hxy Hb].
  assert (x = y) by lia; subst y.
  f_equal. apply IH.
  - destruct Ha as [Ha | Ha]; [congruence | exact Ha].
  - destruct Hb as [Hb | Hb]; [congruence | exact Hb].
Qed.

Lemma str_ltb_asym (a b : str) : str_ltb a b = true -> str_ltb b a = false.
Proof.
  intros H. destruct (str_ltb b a) eqn:E; auto.
  pose proof (str_ltb_trans _ _ _ H E) as T.
  rewrite str_ltb_irrefl in T; discriminate.
Qed.

Lemma str_le_trans (a b c : str) : str_le a b -> str_le b c -> str_le a c.
Proof.
  unfold str_le; intros Hab Hbc.
  destruct (str_ltb c a) eqn:E; auto.
  destruct (str_ltb a b) eqn:E1.
  - rewrite (str_ltb_trans _ _ _ E E1) in Hbc; discriminate.
  - rewrite (str_ltb_total _ _ E1 Hab) in E. congruence.
Qed.

Lemma startswith_app (p rest : str) : startswith (p ++ rest) p = true.
Proof.
  induction p as [|y p IH]; simpl; auto.
  rewrite N.eqb_refl; exact IH.
Qed.

Lemma startswith_iff (s p : str) :
  startswith s p = true <-> exists rest, s = p ++ rest.
Proof.
  split.
  - revert s; induction p as [|y p IH]; intros s H.
    + exists s; reflexivity.
    + destruct s as [|x s]; simpl in H; [discriminate|].
      apply andb_true_iff in H as [Hx Hs]. apply N.eqb_eq in Hx; subst y.
      destruct (IH _ Hs) as [rest ->]. exists rest; reflexivity.
  - intros [rest ->]. apply startswith_app.
Qed.

Lemma startswith_cancel (a s p : str) :
  startswith (a ++ s) (a ++ p) = startswith s p.
Proof.
  induction a as [|x a IH]; simpl; auto.
  rewrite N.eqb_refl; exact IH.
Qed.

(* ================================================================= *)
(** ** Facts about [sorted] *)

Lemma insert_sorted_perm (x : str) (l : list str) :
  Permutation (insert_sorted x l) (x :: l).
Proof.
  induction l as [|y l IH]; simpl; auto.
  destruct (str_ltb x y); auto.
  rewrite IH. apply perm_swap.
Qed.

Lemma sorted_perm (l : list str) : Permutation (sorted l) l.
Proof.
  unfold sorted.
  assert (G : forall acc, Permutation
            (fold_left (fun acc x => insert_sorted x acc) l acc) (l ++ acc)).
  { induction l as [|x l IH]; intros acc; simpl; auto.
    rewrite IH, insert_sorted_perm. symmetry; apply Permutation_middle. }
  rewrite G, app_nil_r; reflexivity.
Qed.

Lemma insert_sorted_le (x : str) (l : list str) :
  StronglySorted str_le l -> StronglySorted str_le (insert_sorted x l).
Proof.
  induction 1 as [|y l Hl IH Hy]; simpl.
  - repeat constructor.
  - destruct (str_ltb x y) eqn:E.
    + constructor; [constructor; assumption|].
      assert (Hxy : str_le x y) by (apply str_ltb_asym; exact E).
      constructor; [exact Hxy|].
      rewrite Forall_forall in *; intros z Hz.
      eapply str_le_trans; [exact Hxy | auto].
    + constructor; [exact IH|].
      rewrite Forall_forall in *; intros z Hz.
      apply (Permutation_in _ (insert_sorted_perm x l)) in Hz.
      destruct Hz as [<- | Hz]; [exact E | auto].
Qed.

Lemma sorted_le (l : list str) : StronglySorted str_le (sorted l).
Proof.
  unfold sorted.
  assert (G : forall acc, StronglySorted str_le acc -> StronglySorted str_le
            (fold_left (fun acc x => insert_sorted x acc) l acc)).
  { induction l as [|x l IH]; intros acc Hacc; simpl; auto.
    apply IH, insert_sorted_le, Hacc. }
  apply G; constructor.
Qed.

(** A listing without repetitions is sorted strictly. *)
Lemma sorted_lt (l : list str) :
  NoDup l -> StronglySorted str_lt (sorted l).
Proof.
  intros Hnd.
  assert (Hnd' : NoDup (sorted l)).
  { eapply Permutation_NoDup; [symmetry; apply sorted_perm | exact Hnd]. }
  pose proof (sorted_le l) as Hs.
  induction Hs as [|y l' Hl IH Hy]; [constructor|].
  inversion Hnd' as [|? ? Hnot Hnd'']; subst.
  constructor; [apply IH; exact Hnd''|].
  rewrite Forall_forall in *; intros z Hz.
  unfold str_lt. destruct (str_ltb y z) eqn:E; auto.
  exfalso; apply Hnot.
  rewrite (str_ltb_total _ _ E (Hy z Hz)); exact Hz.
Qed.

Lemma StronglySorted_filter {A} (R : A -> A -> Prop) (f : A -> bool) l :
  StronglySorted R l -> StronglySorted R (filter f l).
Proof.
  induction 1 as [|x l Hl IH Hx]; simpl; [constructor|].
  destruct (f x); auto.
  constructor; auto.
  rewrite Forall_forall in *; intros y Hy.
  apply filter_In in Hy as [Hy _]; auto.
Qed.

Lemma entries_of_In (names : list str) (e : str) :
  In e (entries_of names) <-> In e names /\ retained e = true.
Proof.
  unfold entries_of. rewrite filter_In.
  split; intros [H1 H2]; split; auto.
  - eapply Permutation_in; [apply sorted_perm | exact H1].
  - eapply Permutation_in; [symmetry; apply sorted_perm | exact H1].
Qed.

Lemma entries_of_sorted (names : list str) :
  NoDup names -> StronglySorted str_lt (entries_of names).
Proof. intros H. apply StronglySorted_filter, sorted_lt, H. Qed.

(* ================================================================= *)
(** ** Lines and levels *)

Lemma entry_line_app fs root prefix n i e :
  exists rest, entry_line fs root prefix n i e = prefix ++ connector i n ++ rest.
Proof.
  unfold entry_line, dir_line, file_line.
  destruct (isdir fs (join root e)); eexists; reflexivity.
Qed.

Lemma entry_line_at_level fs root prefix n i e :
  at_level prefix (entry_line fs root prefix n i e) = true.
Proof.
  destruct (entry_line_app fs root prefix n i e) as [rest ->].
  unfold at_level, connector. rewrite !startswith_cancel.
  destruct (is_last i n); rewrite startswith_app; auto using orb_true_r.
Qed.

Lemma entry_line_startswith fs root prefix n i e :
  startswith (entry_line fs root prefix n i e) prefix = true.
Proof.
  destruct (entry_line_app fs root prefix n i e) as [rest ->].
  apply startswith_app.
Qed.

Lemma deeper_not_at_level prefix i n w :
  startswith w (prefix ++ extension i n) = true -> at_level prefix w = false.
Proof.
  intros H. apply startswith_iff in H as [rest ->].
  unfold at_level, extension. rewrite <- app_assoc, !startswith_cancel.
  destruct (is_last i n); reflexivity.
Qed.

Lemma deeper_level_lines prefix i n (sub : list str) :
  Forall (fun w => startswith w (prefix ++ extension i n) = true) sub ->
  level_lines prefix sub = [].
Proof.
  unfold level_lines. induction 1 as [|w sub Hw _ IH]; simpl; auto.
  rewrite (deeper_not_at_level _ _ _ _ Hw). exact IH.
Qed.

Lemma startswith_weaken (w p q : str) :
  startswith w (p ++ q) = true -> startswith w p = true.
Proof.
  intros H. apply startswith_iff in H as [rest ->].
  rewrite <- app_assoc. apply startswith_app.
Qed.

(* ================================================================= *)
(** ** The loop, one entry at a time *)

Lemma visit_dir rec fs root prefix n i e file :
  isdir fs (join root e) = true ->
  visit rec fs root prefix n i e file =
  rec (join root e) (file ++ [entry_line fs root prefix n i e])
      (prefix ++ extension i n).
Proof. intros H. unfold visit, entry_line, write. rewrite H. reflexivity. Qed.

Lemma visit_file rec fs root prefix n i e file :
  isdir fs (join root e) = false ->
  visit rec fs root prefix n i e file =
  (file ++ [entry_line fs root prefix n i e], Normal).
Proof. intros H. unfold visit, entry_line, write. rewrite H. reflexivity. Qed.

Lemma for_enumerate_app {A} (body : Z -> A -> sink -> sink * outcome)
    (l1 l2 : list A) (i : Z) (file : sink) :
  for_enumerate body i (l1 ++ l2) file =
  match for_enumerate body i l1 file with
  | (file', Normal) =>
      for_enumerate body (i + Z.of_nat (length l1))%Z l2 file'
  | aborted => aborted
  end.
Proof.
  revert i file; induction l1 as [|x l1 IH]; intros i file.
  - simpl. rewrite Z.add_0_r. reflexivity.
  - cbn [app for_enumerate length].
    destruct (body i x file) as [file1 [|ex]]; [|reflexivity].
    rewrite IH. replace (i + 1 + Z.of_nat (length l1))%Z
      with (i + Z.of_nat (S (length l1)))%Z by lia.
    reflexivity.
Qed.

(** Every call appends to the sink, and each line it appends starts with
    the prefix it was given. *)
Lemma print_tree_appends (d : nat) (fs : FS) :
  forall root file prefix file' r,
    print_tree d fs root file prefix = (file', r) ->
    exists out, file' = file ++ out
      /\ Forall (fun w => startswith w prefix = true) out.
Proof.
  induction d as [|d IHd]; intros root file prefix file' r H.
  - inversion H; subst. exists []. rewrite app_nil_r. auto.
  - cbn [print_tree] in H.
    destruct (listdir fs root) as [names|code].
    2:{ inversion H; subst. exists []. rewrite app_nil_r. auto. }
    cbv zeta in H.
    remember (Z.of_nat (length (entries_of names))) as n eqn:En; clear En.
    revert H. generalize 0%Z as i. revert file.
    induction (entries_of names) as [|e l IHl]; intros file i H.
    + inversion H; subst. exists []. rewrite app_nil_r. auto.
    + cbn [for_enumerate] in H.
      destruct (isdir fs (join root e)) eqn:Edir.
      * rewrite visit_dir in H by exact Edir.
        destruct (print_tree d fs (join root e)
                    (file ++ [entry_line fs root prefix n i e])
                    (prefix ++ extension i n)) as [f2 r2] eqn:Esub.
        apply IHd in Esub as [sub [-> Hsub]].
        assert (Hsub' : Forall (fun w => startswith w prefix = true) sub).
        { eapply Forall_impl; [|exact Hsub].
          intros w; apply startswith_weaken. }
        destruct r2 as [|ex].
        -- apply IHl in H as [out [-> Hout]].
           exists (entry_line fs root prefix n i e :: sub ++ out).
           split; [rewrite <- !app_assoc; reflexivity|].
           constructor; [apply entry_line_startswith|].
           apply Forall_app; auto.
        -- inversion H; subst.
           exists (entry_line fs root prefix n i e :: sub).
           split; [rewrite <- !app_assoc; reflexivity|].
           constructor; [apply entry_line_startswith | exact Hsub'].
      * rewrite visit_file in H by exact Edir.
        apply IHl in H as [out [-> Hout]].
        exists (entry_line fs root prefix n i e :: out).
        split; [rewrite <- !app_assoc; reflexivity|].
        constructor; [apply entry_line_startswith | exact Hout].
Qed.

(** The lines a call writes at its own level are those of an initial
    segment of its entries, in order: all of them when it returns. *)
Lemma print_tree_level (d : nat) (fs : FS) root file prefix file' r names :
  listdir fs root = Ok names ->
  print_tree (S d) fs root file prefix = (file', r) ->
  let entries := entries_of names in
  let n := Z.of_nat (length entries) in
  exists out k,
    file' = file ++ out
    /\ (k <= length entries)%nat
    /\ level_lines prefix out =
       map (fun ie => entry_line fs root prefix n (fst ie) (snd ie))
           (firstn k (enumerate_from 0%Z entries))
    /\ (r = Normal -> k = length entries).
Proof.
  intros Hls H. cbn [print_tree] in H. rewrite Hls in H. cbv zeta in *.
  remember (Z.of_nat (length (entries_of names))) as n eqn:En; clear En.
  revert H. generalize 0%Z as i. revert file.
  induction (entries_of names) as [|e l IHl]; intros file i H.
  - inversion H; subst. exists [], 0%nat. rewrite app_nil_r. auto.
  - cbn [for_enumerate] in H.
    destruct (isdir fs (join root e)) eqn:Edir.
    + rewrite visit_dir in H by exact Edir.
      destruct (print_tree d fs (join root e)
                  (file ++ [entry_line fs root prefix n i e])
                  (prefix ++ extension i n)) as [f2 r2] eqn:Esub.
      apply print_tree_appends in Esub as [sub [-> Hsub]].
      pose proof (deeper_level_lines _ _ _ _ Hsub) as Hnone.
      destruct r2 as [|ex].
      * apply IHl in H as [out [k [-> [Hk [Hlv Hn]]]]].
        exists (entry_line fs root prefix n i e :: sub ++ out), (S k).
        split; [rewrite <- !app_assoc; reflexivity|].
        split; [simpl; lia|].
        split; [|intros Hr; simpl; f_equal; auto].
        unfold level_lines in *. cbn [filter enumerate_from firstn map fst snd].
        rewrite entry_line_at_level, filter_app, Hnone, Hlv. reflexivity.
      * inversion H; subst.
        exists (entry_line fs root prefix n i e :: sub), 1%nat.
        split; [rewrite <- !app_assoc; reflexivity|].
        split; [simpl; lia|].
        split; [|discriminate].
        unfold level_lines in *. cbn [filter enumerate_from firstn map fst snd].
        rewrite entry_line_at_level, Hnone. reflexivity.
    + rewrite visit_file in H by exact Edir.
      apply IHl in H as [out [k [-> [Hk [Hlv Hn]]]]].
      exists (entry_line fs root prefix n i e :: out), (S k).
      split; [rewrite <- !app_assoc; reflexivity|].
      split; [simpl; lia|].
      split; [|intros Hr; simpl; f_equal; auto].
      unfold level_lines in *. cbn [filter enumerate_from firstn map fst snd].
      rewrite entry_line_at_level, Hlv. reflexivity.
Qed.

Lemma entry_line_eq fs root prefix n i e :
  entry_line fs root prefix n i e =
  prefix ++ connector i n ++ e ++ entry_tail fs root e.
Proof.
  unfold entry_line, entry_tail, dir_line, file_line.
  destruct (isdir fs (join root e)); rewrite <- ?app_assoc; reflexivity.
Qed.

Lemma last_connector_level prefix out :
  last_connector_lines prefix out =
  last_connector_lines prefix (level_lines prefix out).
Proof.
  unfold last_connector_lines, level_lines.
  induction out as [|w out IH]; simpl; auto.
  unfold at_level at 1.
  destruct (startswith w (prefix ++ connector_last)) eqn:E; simpl.
  - rewrite E. f_equal; exact IH.
  - destruct (startswith w (prefix ++ connector_mid)); simpl; auto.
    rewrite E; exact IH.
Qed.

Lemma entry_line_last_connector fs root prefix n i e :
  startswith (entry_line fs root prefix n i e) (prefix ++ connector_last)
  = is_last i n.
Proof.
  rewrite entry_line_eq, startswith_cancel. unfold connector.
  destruct (is_last i n); [apply startswith_app | reflexivity].
Qed.

Lemma last_connector_entries fs root prefix n (l : list str) (i : Z) :
  n = (i + Z.of_nat (length l))%Z ->
  last_connector_lines prefix
    (map (fun ie => entry_line fs root prefix n (fst ie) (snd ie))
         (enumerate_from i l))
  = match l with
    | [] => []
    | e :: l' => [entry_line fs root prefix n (n - 1) (last l e)]
    end.
Proof.
  unfold last_connector_lines.
  revert i; induction l as [|e l IH]; intros i Hn; [reflexivity|].
  cbn [enumerate_from map filter fst snd].
  rewrite entry_line_last_connector.
  specialize (IH (i + 1)%Z). cbn [length] in Hn.
  rewrite IH by lia. unfold is_last.
  destruct l as [|e' l'].
  - cbn [length] in Hn. replace (i =? n - 1)%Z with true
      by (symmetry; apply Z.eqb_eq; lia).
    simpl. f_equal. f_equal. lia.
  - cbn [length] in Hn. replace (i =? n - 1)%Z with false
      by (symmetry; apply Z.eqb_neq; lia).
    cbn [last]. f_equal. f_equal.
    clear. revert e'. induction l' as [|x l' IH]; intros e'; simpl; auto.
    destruct l'; auto.
Qed.

Lemma StronglySorted_last (l : list str) (e d : str) :
  StronglySorted str_lt l -> In e l -> e <> last l d -> str_lt e (last l d).
Proof.
  induction 1 as [|x l Hl IH Hx]; intros Hin Hne; [contradiction|].
  destruct l as [|y l'].
  - simpl in *. destruct Hin as [->|[]]. congruence.
  - change (last (x :: y :: l') d) with (last (y :: l') d) in *.
    destruct Hin as [<- | Hin].
    + rewrite Forall_forall in Hx. apply Hx.
      clear. revert y. induction l' as [|z l' IH]; intros y; simpl; auto.
      destruct l'; simpl; auto. right. apply (IH z).
    + apply IH; auto.
Qed.

Lemma length_enumerate_from {A} (l : list A) (i : Z) :
  length (enumerate_from i l) = length l.
Proof. revert i; induction l; intros i; simpl; auto. Qed.

Lemma map_snd_enumerate_from {A} (l : list A) (i : Z) :
  map snd (enumerate_from i l) = l.
Proof. revert i; induction l; intros i; simpl; f_equal; auto. Qed.

(* ================================================================= *)
(** ** C1: one line per retained entry, in order *)

(** C1, as stated, fails when a directory below cannot be listed: the
    run over [unreadable_fs] stops after the line of [a/], so the level of
    [r] has one line for its two retained entries. *)
Lemma print_tree_level_cut_short :
  listdir unreadable_fs (lit "r") = Ok [lit "a"; lit "b"]
  /\ entries_of [lit "a"; lit "b"] = [lit "a"; lit "b"]
  /\ print_tree 10 unreadable_fs (lit "r") [] []
     = ([connector_mid ++ lit "a/" ++ nl], Raised (OSError EACCES))
  /\ length (level_lines []
               (fst (print_tree 10 unreadable_fs (lit "r") [] []))) = 1%nat
  /\ length (entries_of [lit "a"; lit "b"]) = 2%nat
  /\ length (level_lines []
               (fst (print_tree 10 unreadable_fs (lit "r") [] [])))
     <> length (entries_of [lit "a"; lit "b"]).
Proof. repeat split. vm_compute. discriminate. Qed.

(** C1 (amended): the lines a call of [print_tree] writes at its own
    level are, in order, the lines of an initial segment of the retained
    entries of its directory, one line each, and of all of them when the
    call returns normally; the retained entries are those of the listing
    that pass the exclusion filter, in strictly ascending order (a listing
    holds no name twice). *)
Theorem print_tree_one_line_per_entry
    (d : nat) (fs : FS) (root : str) (file : sink) (prefix : str)
    (file' : sink) (r : outcome) (names : list str) :
  listdir fs root = Ok names ->
  NoDup names ->
  print_tree (S d) fs root file prefix = (file', r) ->
  let entries := entries_of names in
  let n := Z.of_nat (length entries) in
  exists out k,
    file' = file ++ out
    /\ level_lines prefix out =
       map (fun ie => entry_line fs root prefix n (fst ie) (snd ie))
           (firstn k (enumerate_from 0%Z entries))
    /\ length (level_lines prefix out) = k
    /\ (k <= length entries)%nat
    /\ (r = Normal -> k = length entries)
    /\ StronglySorted str_lt entries
    /\ (forall e, In e entries <-> In e names /\ retained e = true).
Proof.
  intros Hls Hnd H entries n.
  destruct (print_tree_level d fs root file prefix file' r names Hls H)
    as [out [k [Hout [Hk [Hlv Hn]]]]].
  exists out, k.
  split; [exact Hout|]. split; [exact Hlv|].
  split.
  { rewrite Hlv, length_map, length_firstn, length_enumerate_from.
    subst entries. cbv zeta in Hk. lia. }
  split; [exact Hk|]. split; [exact Hn|].
  split; [apply entries_of_sorted; exact Hnd|].
  intros e; apply entries_of_In.
Qed.

Lemma print_tree_one_line_per_entry_witness :
  exists out k,
    fst (print_tree 3 scenario_fs (lit "root") [] []) = [] ++ out
    /\ level_lines [] out =
       map (fun ie => entry_line scenario_fs (lit "root") [] 3 (fst ie) (snd ie))
           (firstn k (enumerate_from 0%Z [lit "a.txt"; lit "b.txt"; lit "sub"]))
    /\ length (level_lines [] out) = k
    /\ (k <= 3)%nat.
Proof.
  destruct (print_tree_one_line_per_entry 2 scenario_fs (lit "root") [] []
              (fst (print_tree 3 scenario_fs (lit "root") [] []))
              (snd (print_tree 3 scenario_fs (lit "root") [] []))
              [lit "sub"; lit "build"; lit "b.txt"; lit "X.class"; lit "a.txt"])
    as [out [k [H1 [H2 [H3 [H4 _]]]]]].
  - reflexivity.
  - solve_NoDup.
  - reflexivity.
  - exists out, k. repeat split; assumption.
Defined.

(* ================================================================= *)
(** ** C3: the connector of each entry *)

(** C3, as stated, fails at a level without retained entries: over
    [artifacts_fs] the call returns normally, the level of [r] is
    rendered, and no line carries the last-entry connector. *)
Lemma no_last_connector_at_empty_level :
  listdir artifacts_fs (lit "r") = Ok [lit "build"; lit ".git"]
  /\ entries_of [lit "build"; lit ".git"] = []
  /\ print_tree 10 artifacts_fs (lit "r") [] [] = ([], Normal)
  /\ last_connector_lines []
       (fst (print_tree 10 artifacts_fs (lit "r") [] [])) = []
  /\ length (last_connector_lines []
               (fst (print_tree 10 artifacts_fs (lit "r") [] []))) <> 1%nat.
Proof. repeat split. vm_compute. discriminate. Qed.

(** C3 (amended): when a call of [print_tree] returns normally, the line
    of the entry at index [i], of the [n] retained entries of its
    directory, carries the last-entry connector if [i = n - 1] and the
    middle connector otherwise; so the level has exactly one line with the
    last-entry connector when [n >= 1], the line of the entry that is
    greatest in the order, and none when [n = 0]. *)
Theorem connector_by_index
    (d : nat) (fs : FS) (root : str) (file : sink) (prefix : str)
    (file' : sink) (names : list str) :
  listdir fs root = Ok names ->
  NoDup names ->
  print_tree (S d) fs root file prefix = (file', Normal) ->
  let entries := entries_of names in
  let n := Z.of_nat (length entries) in
  exists out,
    file' = file ++ out
    /\ level_lines prefix out =
       map (fun ie =>
              prefix
              ++ (if (fst ie =? n - 1)%Z then connector_last
                  else connector_mid)
              ++ snd ie ++ entry_tail fs root (snd ie))
           (enumerate_from 0%Z entries)
    /\ last_connector_lines prefix out =
       match entries with
       | [] => []
       | e :: _ =>
           [prefix ++ connector_last ++ last entries e
              ++ entry_tail fs root (last entries e)]
       end
    /\ (forall e e0, In e entries -> e <> last entries e0 ->
                     str_lt e (last entries e0)).
Proof.
  intros Hls Hnd H entries n.
  destruct (print_tree_level d fs root file prefix file' Normal names Hls H)
    as [out [k [Hout [Hk [Hlv Hn]]]]].
  cbv zeta in *. fold entries in Hk, Hlv, Hn. fold n in Hlv.
  rewrite (Hn eq_refl) in Hlv.
  rewrite firstn_all2 in Hlv by (rewrite length_enumerate_from; lia).
  exists out. split; [exact Hout|]. split; [|split].
  - rewrite Hlv. apply map_ext. intros [i e]. apply entry_line_eq.
  - rewrite last_connector_level, Hlv.
    rewrite (last_connector_entries fs root prefix n entries 0)
      by (unfold n; lia).
    destruct entries as [|e l]; [reflexivity|].
    rewrite entry_line_eq. unfold connector, is_last.
    rewrite Z.eqb_refl. reflexivity.
  - intros e e0 Hin Hne.
    apply StronglySorted_last; auto.
    apply entries_of_sorted; exact Hnd.
Qed.

Lemma connector_by_index_witness :
  exists out,
    fst (print_tree 3 scenario_fs (lit "root") [] []) = [] ++ out
    /\ last_connector_lines [] out = [connector_last ++ lit "sub" ++ lit "/" ++ nl].
Proof.
  destruct (connector_by_index 2 scenario_fs (lit "root") [] []
              (fst (print_tree 3 scenario_fs (lit "root") [] []))
              [lit "sub"; lit "build"; lit "b.txt"; lit "X.class"; lit "a.txt"])
    as [out [H1 [_ [H3 _]]]].
  - reflexivity.
  - solve_NoDup.
  - reflexivity.
  - exists out. split; [exact H1 | exact H3].
Defined.

(* ================================================================= *)
(** ** Where each line comes from *)

Lemma visited_descends fs root prefix0 k dir prefix :
  visited fs root prefix0 k dir prefix ->
  descends fs root k dir
  /\ exists exts, length exts = k /\ Forall is_extension exts
                  /\ prefix = prefix0 ++ concat exts.
Proof.
  induction 1 as [|k dir prefix names i e Hv [IHd [exts [Hl [Hf Hp]]]] Hls Hn Hd].
  - split; [constructor|]. exists []. rewrite app_nil_r. auto.
  - split.
    + econstructor; eauto. eapply nth_error_In; eauto.
    + exists (exts ++ [extension (Z.of_nat i)
                         (Z.of_nat (length (entries_of names)))]).
      split; [rewrite length_app; simpl; lia|].
      split.
      * apply Forall_app; split; auto. constructor; auto.
        unfold is_extension, extension. destruct (is_last _ _); auto.
      * rewrite concat_app, Hp, <- app_assoc. simpl. rewrite app_nil_r.
        reflexivity.
Qed.

(** A visit below a subdirectory is a visit below its parent. *)
Lemma visited_step fs root prefix0 names i e k dir prefix :
  listdir fs root = Ok names ->
  nth_error (entries_of names) i = Some e ->
  isdir fs (join root e) = true ->
  visited fs (join root e)
    (prefix0 ++ extension (Z.of_nat i) (Z.of_nat (length (entries_of names))))
    k dir prefix ->
  visited fs root prefix0 (S k) dir prefix.
Proof.
  intros Hls Hn Hd Hv.
  induction Hv as [|k dir prefix names' i' e' Hv IH Hls' Hn' Hd'].
  - eapply visited_into; eauto. constructor.
  - eapply visited_into; eauto.
Qed.

Lemma line_of_visit_step fs root prefix0 names i e w :
  listdir fs root = Ok names ->
  nth_error (entries_of names) i = Some e ->
  isdir fs (join root e) = true ->
  line_of_visit fs (join root e)
    (prefix0 ++ extension (Z.of_nat i) (Z.of_nat (length (entries_of names))))
    w ->
  line_of_visit fs root prefix0 w.
Proof.
  intros Hls Hn Hd (k & dir & prefix & names' & i' & e' & Hv & H1 & H2 & H3).
  exists (S k), dir, prefix, names', i', e'.
  split; [eapply visited_step; eauto | auto].
Qed.

(** A property of the lines of the entries, kept by the recursive calls,
    holds of every line the loop writes. *)
Lemma loop_lines (P : str -> Prop) (d : nat) (fs : FS) (root prefix : str)
    (entries : list str) (n : Z) :
  (forall i e, nth_error entries i = Some e ->
               P (entry_line fs root prefix n (Z.of_nat i) e)) ->
  (forall i e f1 f2 r2,
      nth_error entries i = Some e ->
      isdir fs (join root e) = true ->
      print_tree d fs (join root e) f1 (prefix ++ extension (Z.of_nat i) n)
        = (f2, r2) ->
      exists sub, f2 = f1 ++ sub /\ Forall P sub) ->
  forall l before file file' r,
    entries = before ++ l ->
    for_enumerate (visit (print_tree d fs) fs root prefix n)
      (Z.of_nat (length before)) l file = (file', r) ->
    exists out, file' = file ++ out /\ Forall P out.
Proof.
  intros Hline Hrec.
  induction l as [|e l IHl]; intros before file file' r Hent H.
  - inversion H; subst. exists []. rewrite app_nil_r. auto.
  - assert (Hnth : nth_error entries (length before) = Some e).
    { rewrite Hent, nth_error_app2, Nat.sub_diag by lia. reflexivity. }
    assert (Hnext : forall f,
      for_enumerate (visit (print_tree d fs) fs root prefix n)
        (Z.of_nat (length before) + 1) l f
      = for_enumerate (visit (print_tree d fs) fs root prefix n)
        (Z.of_nat (length (before ++ [e]))) l f).
    { intros f. rewrite length_app. simpl. f_equal. lia. }
    assert (Hent' : entries = (before ++ [e]) ++ l)
      by (rewrite <- app_assoc; exact Hent).
    cbn [for_enumerate] in H.
    destruct (isdir fs (join root e)) eqn:Edir.
    + rewrite visit_dir in H by exact Edir.
      destruct (print_tree d fs (join root e)
                  (file ++ [entry_line fs root prefix n
                              (Z.of_nat (length before)) e])
                  (prefix ++ extension (Z.of_nat (length before)) n))
        as [f2 r2] eqn:Esub.
      destruct (Hrec _ _ _ _ _ Hnth Edir Esub) as [sub [-> Hsub]].
      destruct r2 as [|ex].
      * rewrite Hnext in H.
        destruct (IHl _ _ _ _ Hent' H) as [out [-> Hout]].
        eexists. split; [rewrite <- !app_assoc; reflexivity|].
        simpl. constructor; [apply Hline; exact Hnth|].
        apply Forall_app; auto.
      * inversion H; subst.
        eexists. split; [rewrite <- !app_assoc; reflexivity|].
        simpl. constructor; [apply Hline; exact Hnth | exact Hsub].
    + rewrite visit_file in H by exact Edir.
      rewrite Hnext in H.
      destruct (IHl _ _ _ _ Hent' H) as [out [-> Hout]].
      eexists. split; [rewrite <- !app_assoc; reflexivity|].
      simpl. constructor; [apply Hline; exact Hnth | exact Hout].
Qed.

(** Every line written is the line of an entry of a visited directory. *)
Lemma print_tree_lines (d : nat) (fs : FS) :
  forall root file prefix file' r,
    print_tree d fs root file prefix = (file', r) ->
    exists out, file' = file ++ out
      /\ Forall (line_of_visit fs root prefix) out.
Proof.
  induction d as [|d IHd]; intros root file prefix file' r H.
  - inversion H; subst. exists []. rewrite app_nil_r. auto.
  - cbn [print_tree] in H.
    destruct (listdir fs root) as [names|code] eqn:Hls.
    2:{ inversion H; subst. exists []. rewrite app_nil_r. auto. }
    cbv zeta in H.
    eapply (loop_lines (line_of_visit fs root prefix) d fs root prefix
              (entries_of names) _ _ _ (entries_of names) []);
      [reflexivity | exact H].
    Unshelve.
    + intros i e Hn.
      exists 0%nat, root, prefix, names, i, e.
      repeat split; auto. constructor.
    + intros i e f1 f2 r2 Hn Hd Hsub.
      apply IHd in Hsub as [sub [-> Hsub]].
      exists sub. split; [reflexivity|].
      eapply Forall_impl; [|exact Hsub].
      intros w. apply line_of_visit_step; assumption.
Qed.

(* ================================================================= *)
(** ** The exclusion filter *)

Lemma endswith_iff (s p : str) :
  endswith s p = true <-> exists stem, s = stem ++ p.
Proof.
  unfold endswith. rewrite andb_true_iff, Nat.leb_le, str_eqb_eq. split.
  - intros [Hle Hs]. exists (firstn (length s - length p) s).
    pose proof (firstn_skipn (length s - length p) s) as F.
    rewrite Hs in F. symmetry; exact F.
  - intros [stem ->]. rewrite length_app. split; [lia|].
    replace (length stem + length p - length p)%nat with (length stem) by lia.
    rewrite skipn_app, skipn_all, Nat.sub_diag. reflexivity.
Qed.

Lemma retained_false_iff (e : str) : retained e = false <-> excluded e.
Proof.
  unfold retained, excluded.
  rewrite andb_false_iff, !negb_false_iff, !existsb_exists. split.
  - intros [[x [Hin Hx]] | [x [Hin Hx]]].
    + left. apply str_eqb_eq in Hx; subst; exact Hin.
    + right. apply endswith_iff in Hx as [stem ->]. eauto.
  - intros [Hin | [stem [suffix [Hin ->]]]].
    + left. exists e. split; [exact Hin | apply str_eqb_refl].
    + right. exists suffix. split; [exact Hin|].
      apply endswith_iff. eauto.
Qed.

(* ================================================================= *)
(** ** Reading a line back *)

Lemma status_is_status fs path : is_status (status fs path).
Proof.
  unfold status, is_status.
  destruct (getsize fs path) as [size|code]; [destruct (size =? 0)%N|]; auto.
Qed.

Lemma entry_tail_is_tail fs root e : is_tail (entry_tail fs root e).
Proof.
  unfold entry_tail, is_tail.
  destruct (isdir fs (join root e)); [left; reflexivity|].
  right. eexists. split; [apply status_is_status | reflexivity].
Qed.

Lemma connector_is_connector i n : is_connector (connector i n).
Proof. unfold connector, is_connector. destruct (is_last i n); auto. Qed.

(** No end of line is the end of another: the name before it is fixed. *)
Lemma tail_unique (E e T t : str) :
  is_tail T -> is_tail t -> E ++ T = e ++ t -> E = e.
Proof.
  intros HT Ht H.
  apply (f_equal (@rev N)) in H. rewrite !rev_app_distr in H.
  assert (G : rev E = rev e).
  { remember (rev E) as E'. remember (rev e) as e'. clear - HT Ht H.
    destruct HT as [-> | [S [[-> | [-> | ->]] ->]]];
      destruct Ht as [-> | [s [[-> | [-> | ->]] ->]]];
      cbv in H; inversion H; reflexivity. }
  rewrite <- (rev_involutive E), <- (rev_involutive e), G. reflexivity.
Qed.

(** A line is built in one way only from extensions, a connector, a name
    and an end of line. *)
Lemma parse_unique (X x : list str) (C c E e T t : str) :
  Forall is_extension X -> Forall is_extension x ->
  is_connector C -> is_connector c ->
  is_tail T -> is_tail t ->
  concat X ++ C ++ E ++ T = concat x ++ c ++ e ++ t ->
  length X = length x /\ C = c /\ E = e.
Proof.
  intros HX. revert x.
  induction HX as [|X1 X HX1 HX IH]; intros x Hx HC Hc HT Ht H.
  - destruct Hx as [|x1 x Hx1 Hx].
    + cbn [concat app] in H.
      remember (E ++ T) as R eqn:HR. remember (e ++ t) as r eqn:Hr.
      destruct HC as [-> | ->]; destruct Hc as [-> | ->];
        cbv in H; try discriminate H; inversion H as [H']; subst R r;
        (split; [reflexivity|]; split; [reflexivity|]);
        exact (tail_unique _ _ _ _ HT Ht H').
    + exfalso. cbn [concat] in H. rewrite <- app_assoc in H.
      remember (E ++ T) as R eqn:HR.
      remember (concat x ++ c ++ e ++ t) as r eqn:Hr.
      destruct HC as [-> | ->]; destruct Hx1 as [-> | ->];
        cbv in H; discriminate H.
  - destruct Hx as [|x1 x Hx1 Hx].
    + exfalso. cbn [concat] in H. rewrite <- app_assoc in H.
      remember (e ++ t) as r eqn:Hr.
      remember (concat X ++ C ++ E ++ T) as R eqn:HR.
      destruct Hc as [-> | ->]; destruct HX1 as [-> | ->];
        cbv in H; discriminate H.
    + cbn [concat] in H. rewrite <- !app_assoc in H.
      remember (concat X ++ C ++ E ++ T) as R eqn:HR.
      remember (concat x ++ c ++ e ++ t) as r eqn:Hr.
      destruct HX1 as [-> | ->]; destruct Hx1 as [-> | ->];
        cbv in H; try discriminate H;
        inversion H as [H']; subst R r;
        destruct (IH x Hx HC Hc HT Ht H') as [Hl [HCc HEe]];
        (split; [simpl; congruence | split; assumption]).
Qed.

Lemma indentation_extension (x rest : str) :
  is_extension x -> indentation (x ++ rest) = (4 + indentation rest)%nat.
Proof. intros [-> | ->]; reflexivity. Qed.

Lemma indentation_extensions (exts : list str) (c rest : str) :
  Forall is_extension exts -> is_connector c ->
  indentation (concat exts ++ c ++ rest) = (4 * length exts)%nat.
Proof.
  intros Hx Hc. induction Hx as [|x exts Hx _ IH].
  - destruct Hc as [-> | ->]; reflexivity.
  - cbn [concat length]. rewrite <- app_assoc.
    rewrite indentation_extension, IH by exact Hx. lia.
Qed.

(* ================================================================= *)
(** ** C2: excluded entries are never rendered *)

Lemma line_of_visit_line_for fs root prefix w :
  line_of_visit fs root prefix w ->
  exists e, line_for prefix e w /\ retained e = true
            /\ forall e', line_for prefix e' w -> e' = e.
Proof.
  intros (k & dir & p & names & i & e & Hv & Hls & Hn & ->).
  apply visited_descends in Hv as [_ [exts [Hl [Hx ->]]]].
  rewrite entry_line_eq, <- app_assoc.
  exists e. split; [|split].
  - exists exts, (connector (Z.of_nat i)
                    (Z.of_nat (length (entries_of names)))),
                 (entry_tail fs dir e).
    auto using connector_is_connector, entry_tail_is_tail.
  - apply nth_error_In in Hn. apply entries_of_In in Hn. tauto.
  - intros e' (exts' & c' & t' & Hx' & Hc' & Ht' & H).
    apply app_inv_head in H.
    symmetry in H.
    apply parse_unique in H;
      auto using connector_is_connector, entry_tail_is_tail.
    tauto.
Qed.

(** C2: in every run, whatever its outcome, each line written at any
    depth is the line of one entry only, and that entry passed the
    filter; so no line is a line for an entry whose name is [.git],
    [.idea], [out] or [build] or ends with [.class] or [.iml]. *)
Theorem excluded_never_rendered
    (d : nat) (fs : FS) (root : str) (file : sink) (prefix : str)
    (file' : sink) (r : outcome) :
  print_tree d fs root file prefix = (file', r) ->
  exists out,
    file' = file ++ out
    /\ (forall w, In w out ->
          exists e, line_for prefix e w /\ retained e = true)
    /\ (forall w e, In w out -> excluded e -> ~ line_for prefix e w).
Proof.
  intros H. apply print_tree_lines in H as [out [-> Hout]].
  exists out. split; [reflexivity|].
  rewrite Forall_forall in Hout. split.
  - intros w Hw. destruct (line_of_visit_line_for _ _ _ _ (Hout w Hw))
      as [e [H1 [H2 _]]]. eauto.
  - intros w e Hw Hex Hline.
    destruct (line_of_visit_line_for _ _ _ _ (Hout w Hw))
      as [e0 [_ [H2 H3]]].
    rewrite (H3 e Hline) in Hex.
    apply retained_false_iff in Hex. congruence.
Qed.

Lemma excluded_never_rendered_witness :
  exists out,
    fst (print_tree 3 scenario_fs (lit "root") [] []) = [] ++ out
    /\ (forall w, In w out ->
          exists e, line_for [] e w /\ retained e = true)
    /\ (forall w e, In w out -> excluded e -> ~ line_for [] e w).
Proof.
  apply (excluded_never_rendered 3 scenario_fs (lit "root") [] []
           (fst (print_tree 3 scenario_fs (lit "root") [] []))
           (snd (print_tree 3 scenario_fs (lit "root") [] []))).
  reflexivity.
Defined.

(* ================================================================= *)
(** ** C7: indentation and depth *)

Lemma length_concat_extensions (exts : list str) :
  Forall is_extension exts -> length (concat exts) = (4 * length exts)%nat.
Proof.
  induction 1 as [|x exts Hx _ IH]; [reflexivity|].
  cbn [concat length]. rewrite length_app, IH.
  destruct Hx as [-> | ->]; simpl; lia.
Qed.

(** C7: every line of a run started with the empty prefix is the line
    of an entry of a directory lying [k] directories below the traversal
    root, and what precedes its connector is [k] extensions of four code
    points each, [4 * k] code points in all. *)
Theorem indentation_by_depth
    (d : nat) (fs : FS) (root : str) (file file' : sink) (r : outcome) :
  print_tree d fs root file [] = (file', r) ->
  exists out,
    file' = file ++ out
    /\ forall w, In w out ->
         exists k dir names e exts c,
           descends fs root k dir
           /\ listdir fs dir = Ok names
           /\ In e (entries_of names)
           /\ is_connector c
           /\ Forall is_extension exts
           /\ length exts = k
           /\ w = concat exts ++ c ++ e ++ entry_tail fs dir e
           /\ length (concat exts) = (4 * k)%nat
           /\ indentation w = (4 * k)%nat.
Proof.
  intros H. apply print_tree_lines in H as [out [-> Hout]].
  exists out. split; [reflexivity|].
  rewrite Forall_forall in Hout. intros w Hw.
  destruct (Hout w Hw) as (k & dir & p & names & i & e & Hv & Hls & Hn & ->).
  apply visited_descends in Hv as [Hd [exts [Hl [Hx ->]]]].
  exists k, dir, names, e, exts,
    (connector (Z.of_nat i) (Z.of_nat (length (entries_of names)))).
  rewrite entry_line_eq. cbn [app].
  repeat split; auto using connector_is_connector.
  - eapply nth_error_In; eauto.
  - rewrite length_concat_extensions, Hl by exact Hx. reflexivity.
  - rewrite indentation_extensions, Hl;
      auto using connector_is_connector.
Qed.

Lemma indentation_by_depth_witness :
  exists out,
    fst (print_tree 3 scenario_fs (lit "root") [] []) = [] ++ out
    /\ forall w, In w out ->
         exists k dir names e exts c,
           descends scenario_fs (lit "root") k dir
           /\ listdir scenario_fs dir = Ok names
           /\ In e (entries_of names)
           /\ is_connector c
           /\ Forall is_extension exts
           /\ length exts = k
           /\ w = concat exts ++ c ++ e ++ entry_tail scenario_fs dir e
           /\ length (concat exts) = (4 * k)%nat
           /\ indentation w = (4 * k)%nat.
Proof.
  apply (indentation_by_depth 3 scenario_fs (lit "root") []
           (fst (print_tree 3 scenario_fs (lit "root") [] []))
           (snd (print_tree 3 scenario_fs (lit "root") [] []))).
  reflexivity.
Defined.

(* ================================================================= *)
(** ** C4, C5: what the loop does at one entry *)

(** The call on [root], cut at the entry [e] of its retained entries:
    the entries before [e], then [e], then the entries after it, each
    part running on the sink the part before it left; an exception ends
    the call where it is raised. *)
Lemma print_tree_at_entry (d : nat) (fs : FS) (root : str) (file : sink)
    (prefix : str) (names before rest : list str) (e : str) :
  listdir fs root = Ok names ->
  entries_of names = before ++ e :: rest ->
  let n := Z.of_nat (length (entries_of names)) in
  let i := Z.of_nat (length before) in
  let body := visit (print_tree d fs) fs root prefix n in
  print_tree (S d) fs root file prefix =
  match for_enumerate body 0%Z before file with
  | (f1, Normal) =>
      match body i e f1 with
      | (f2, Normal) => for_enumerate body (i + 1)%Z rest f2
      | aborted => aborted
      end
  | aborted => aborted
  end.
Proof.
  intros Hls Hent n i body.
  cbn [print_tree]. rewrite Hls. cbv zeta. fold n. fold body.
  clearbody body. rewrite Hent. rewrite for_enumerate_app.
  destruct (for_enumerate body 0 before file) as [f1 [|ex]]; reflexivity.
Qed.

Lemma In_enumerate_from {A} (before rest : list A) (e : A) (i : Z) :
  In ((i + Z.of_nat (length before))%Z, e)
     (enumerate_from i (before ++ e :: rest)).
Proof.
  revert i; induction before as [|x before IH]; intros i.
  - left. f_equal. simpl. lia.
  - right. cbn [length].
    replace (i + Z.of_nat (S (length before)))%Z
      with (i + 1 + Z.of_nat (length before))%Z by lia.
    apply IH.
Qed.

(** The line of each retained entry is in what a call that returns
    normally has written. *)
Lemma entry_line_written (d : nat) (fs : FS) root file prefix file'
    (names before rest : list str) (e : str) :
  listdir fs root = Ok names ->
  entries_of names = before ++ e :: rest ->
  print_tree (S d) fs root file prefix = (file', Normal) ->
  exists out,
    file' = file ++ out
    /\ In (entry_line fs root prefix
             (Z.of_nat (length (entries_of names)))
             (Z.of_nat (length before)) e) out.
Proof.
  intros Hls Hent H.
  destruct (print_tree_level d fs root file prefix file' Normal names Hls H)
    as [out [k [Hout [Hk [Hlv Hn]]]]].
  cbv zeta in *. rewrite (Hn eq_refl) in Hlv.
  rewrite firstn_all2 in Hlv by (rewrite length_enumerate_from; lia).
  exists out. split; [exact Hout|].
  assert (Hin : In (entry_line fs root prefix
                      (Z.of_nat (length (entries_of names)))
                      (Z.of_nat (length before)) e)
                   (level_lines prefix out)).
  { rewrite Hlv. rewrite Hent at 2.
    apply (in_map (fun ie => entry_line fs root prefix
                     (Z.of_nat (length (entries_of names)))
                     (fst ie) (snd ie))
             _ (Z.of_nat (length before), e)).
    apply (In_enumerate_from before rest e 0%Z). }
  unfold level_lines in Hin. apply filter_In in Hin. tauto.
Qed.

Lemma last_index_iff (before rest : list str) (e : str) :
  (Z.of_nat (length before)
   =? Z.of_nat (length (before ++ e :: rest)) - 1)%Z = true
  <-> rest = [].
Proof.
  rewrite Z.eqb_eq, length_app. cbn [length].
  destruct rest; simpl; split; intros H; try reflexivity;
    try discriminate; lia.
Qed.

(** C4: at a retained entry [e] that is a directory, found at index
    [i] of [n], [print_tree] appends the line
    [prefix + connector + e + "/" + "\n"] to the sink the entries before
    [e] left, then calls itself on the subdirectory with
    [prefix + extension], where the extension is four spaces if [e] is
    the last entry and a bar and three spaces otherwise; the entries
    after [e] are rendered on the sink the recursive call returns, that
    is after everything below [e].  The line of [e] is in what a call
    that returns normally has written. *)
Theorem directory_entry_rendering
    (d : nat) (fs : FS) (root : str) (file : sink) (prefix : str)
    (names before rest : list str) (e : str) :
  listdir fs root = Ok names ->
  entries_of names = before ++ e :: rest ->
  isdir fs (join root e) = true ->
  let n := Z.of_nat (length (entries_of names)) in
  let i := Z.of_nat (length before) in
  let last := (i =? n - 1)%Z in
  let body := visit (print_tree d fs) fs root prefix n in
  (last = true <-> rest = [])
  /\ print_tree (S d) fs root file prefix =
     match for_enumerate body 0%Z before file with
     | (f1, Normal) =>
         match
           print_tree d fs (join root e)
             (f1 ++ [prefix
                     ++ (if last then connector_last else connector_mid)
                     ++ e ++ lit "/" ++ nl])
             (prefix ++ (if last then [space; space; space; space]
                         else [box_vert; space; space; space]))
         with
         | (f2, Normal) => for_enumerate body (i + 1)%Z rest f2
         | aborted => aborted
         end
     | aborted => aborted
     end
  /\ (forall file',
        print_tree (S d) fs root file prefix = (file', Normal) ->
        exists out,
          file' = file ++ out
          /\ In (prefix ++ (if last then connector_last else connector_mid)
                 ++ e ++ lit "/" ++ nl) out).
Proof.
  intros Hls Hent Hdir n i last body. split; [|split].
  - unfold last, i, n. rewrite Hent. apply last_index_iff.
  - rewrite (print_tree_at_entry d fs root file prefix names before rest e
               Hls Hent).
    fold n i body.
    destruct (for_enumerate body 0 before file) as [f1 [|ex]];
      [|reflexivity].
    unfold body at 1. rewrite visit_dir by exact Hdir.
    unfold entry_line. rewrite Hdir. reflexivity.
  - intros file' H.
    destruct (entry_line_written d fs root file prefix file' names before
                rest e Hls Hent H) as [out [Hout Hin]].
    exists out. split; [exact Hout|].
    unfold entry_line in Hin. rewrite Hdir in Hin. exact Hin.
Qed.

Lemma directory_entry_rendering_witness :
  print_tree 3 scenario_fs (lit "root") [] [] =
  match
    for_enumerate (visit (print_tree 2 scenario_fs) scenario_fs (lit "root") [] 3)
      0%Z [lit "a.txt"; lit "b.txt"] []
  with
  | (f1, Normal) =>
      match
        print_tree 2 scenario_fs (lit "root/sub")
          (f1 ++ [connector_last ++ lit "sub" ++ lit "/" ++ nl])
          [space; space; space; space]
      with
      | (f2, Normal) =>
          for_enumerate
            (visit (print_tree 2 scenario_fs) scenario_fs (lit "root") [] 3)
            3%Z [] f2
      | aborted => aborted
      end
  | aborted => aborted
  end.
Proof.
  destruct (directory_entry_rendering 2 scenario_fs (lit "root") [] []
              [lit "sub"; lit "build"; lit "b.txt"; lit "X.class"; lit "a.txt"]
              [lit "a.txt"; lit "b.txt"] [] (lit "sub"))
    as [_ [H _]]; [reflexivity | reflexivity | reflexivity | exact H].
Defined.

(** C5: at a retained entry [e] that is not a directory, [print_tree]
    appends the line [prefix + connector + e + " " + status + "\n"] and
    goes on with the entries after [e]; the status is [[EMPTY]] when the
    size of the file is 0, [[OK]] when it is 1 or more, and [[?]] when
    reading the size raises [OSError].  The line of [e] is in what a
    call that returns normally has written. *)
Theorem file_entry_rendering
    (d : nat) (fs : FS) (root : str) (file : sink) (prefix : str)
    (names before rest : list str) (e : str) :
  listdir fs root = Ok names ->
  entries_of names = before ++ e :: rest ->
  isdir fs (join root e) = false ->
  let n := Z.of_nat (length (entries_of names)) in
  let i := Z.of_nat (length before) in
  let body := visit (print_tree d fs) fs root prefix n in
  exists stat,
    (getsize fs (join root e) = Ok 0%N -> stat = lit "[EMPTY]")
    /\ (forall size, getsize fs (join root e) = Ok size ->
                     (1 <= size)%N -> stat = lit "[OK]")
    /\ (forall code, getsize fs (join root e) = Err code ->
                     stat = lit "[?]")
    /\ print_tree (S d) fs root file prefix =
       match for_enumerate body 0%Z before file with
       | (f1, Normal) =>
           for_enumerate body (i + 1)%Z rest
             (f1 ++ [prefix
                     ++ (if (i =? n - 1)%Z then connector_last
                         else connector_mid)
                     ++ e ++ lit " " ++ stat ++ nl])
       | aborted => aborted
       end
    /\ (forall file',
          print_tree (S d) fs root file prefix = (file', Normal) ->
          exists out,
            file' = file ++ out
            /\ In (prefix
                   ++ (if (i =? n - 1)%Z then connector_last
                       else connector_mid)
                   ++ e ++ lit " " ++ stat ++ nl) out).
Proof.
  intros Hls Hent Hdir n i body.
  exists (status fs (join root e)).
  split; [|split; [|split; [|split]]].
  - unfold status. intros ->. reflexivity.
  - unfold status. intros size -> Hsize.
    destruct (N.eqb_spec size 0); [lia | reflexivity].
  - unfold status. intros code ->. reflexivity.
  - rewrite (print_tree_at_entry d fs root file prefix names before rest e
               Hls Hent).
    fold n i body.
    destruct (for_enumerate body 0 before file) as [f1 [|ex]];
      [|reflexivity].
    unfold body at 1. rewrite visit_file by exact Hdir.
    unfold entry_line. rewrite Hdir. reflexivity.
  - intros file' H.
    destruct (entry_line_written d fs root file prefix file' names before
                rest e Hls Hent H) as [out [Hout Hin]].
    exists out. split; [exact Hout|].
    unfold entry_line in Hin. rewrite Hdir in Hin. exact Hin.
Qed.

Lemma file_entry_rendering_witness :
  exists stat,
    stat = lit "[?]"
    /\ print_tree 3 vanished_fs (lit "r") [] [] =
       for_enumerate
         (visit (print_tree 2 vanished_fs) vanished_fs (lit "r") [] 3)
         2%Z [lit "z"]
         ([connector_mid ++ lit "x [EMPTY]" ++ nl]
            ++ [connector_mid ++ lit "y" ++ lit " " ++ stat ++ nl]).
Proof.
  destruct (file_entry_rendering 2 vanished_fs (lit "r") [] []
              [lit "z"; lit "y"; lit "x"] [lit "x"] [lit "z"] (lit "y"))
    as [stat [_ [_ [H3 [H4 _]]]]]; try reflexivity.
  exists stat. split; [apply (H3 ENOENT); reflexivity | exact H4].
Defined.

(* ================================================================= *)
(** ** C6: which failures leave [print_tree] *)

Lemma descends_step fs root names e k dir :
  listdir fs root = Ok names ->
  In e (entries_of names) ->
  isdir fs (join root e) = true ->
  descends fs (join root e) k dir ->
  descends fs root (S k) dir.
Proof.
  intros Hls Hin Hd Hdesc.
  induction Hdesc as [|k dir names' e' Hdesc IH Hls' Hin' Hd'].
  - eapply descends_into; eauto. constructor.
  - eapply descends_into; eauto.
Qed.

(** An exception leaves the loop from the body that raised it. *)
Lemma for_enumerate_raised {A} (body : Z -> A -> sink -> sink * outcome)
    (l : list A) (i : Z) (file file' : sink) (x : exn) :
  for_enumerate body i l file = (file', Raised x) ->
  exists j e f, In e l /\ body j e f = (file', Raised x).
Proof.
  revert i file; induction l as [|e l IH]; intros i file H;
    [discriminate H|].
  cbn [for_enumerate] in H.
  destruct (body i e file) as [f1 [|ex]] eqn:Eb.
  - destruct (IH _ _ H) as (j & e' & f & Hin & Hb).
    exists j, e', f. split; [right; exact Hin | exact Hb].
  - inversion H; subst. exists i, e, file. split; [left; reflexivity | exact Eb].
Qed.

Lemma visit_raised rec fs root prefix n i e f file' x :
  visit rec fs root prefix n i e f = (file', Raised x) ->
  isdir fs (join root e) = true
  /\ rec (join root e) (f ++ [entry_line fs root prefix n i e])
         (prefix ++ extension i n) = (file', Raised x).
Proof.
  intros H. destruct (isdir fs (join root e)) eqn:Edir.
  - rewrite visit_dir in H by exact Edir. auto.
  - rewrite visit_file in H by exact Edir. discriminate H.
Qed.

(** An [OSError] that leaves [print_tree] comes from a listing. *)
Lemma oserror_from_listing (d : nat) (fs : FS) :
  forall root file prefix file' code,
    print_tree d fs root file prefix = (file', Raised (OSError code)) ->
    exists k dir, descends fs root k dir /\ listdir fs dir = Err code.
Proof.
  induction d as [|d IHd]; intros root file prefix file' code H;
    [discriminate H|].
  cbn [print_tree] in H.
  destruct (listdir fs root) as [names|code'] eqn:Hls.
  - cbv zeta in H.
    apply for_enumerate_raised in H as (j & e & f & Hin & Hb).
    apply visit_raised in Hb as [Hdir Hsub].
    apply IHd in Hsub as (k & dir & Hdesc & Herr).
    exists (S k), dir. split; [|exact Herr].
    eapply descends_step; eauto.
  - inversion H; subst. exists 0%nat, root. split; [constructor | exact Hls].
Qed.

(** A call that returns normally made, for each directory among its
    entries, a recursive call that returned normally. *)
Lemma normal_below (d : nat) (fs : FS) root file prefix file' names e :
  print_tree (S d) fs root file prefix = (file', Normal) ->
  listdir fs root = Ok names ->
  In e (entries_of names) ->
  isdir fs (join root e) = true ->
  exists f1 p f2, print_tree d fs (join root e) f1 p = (f2, Normal).
Proof.
  intros H Hls Hin Hdir.
  apply in_split in Hin as [before [rest Hent]].
  rewrite (print_tree_at_entry d fs root file prefix names before rest e
             Hls Hent) in H.
  cbv zeta in H.
  destruct (for_enumerate _ 0%Z before file) as [f1 [|ex]];
    [|discriminate H].
  rewrite visit_dir in H by exact Hdir.
  destruct (print_tree d fs (join root e) _ _) as [f2 [|ex]] eqn:Esub;
    [|discriminate H].
  eauto.
Qed.

Lemma normal_everywhere (fs : FS) root k dir :
  descends fs root k dir ->
  forall d file prefix file',
    print_tree d fs root file prefix = (file', Normal) ->
    exists d' f p f', print_tree d' fs dir f p = (f', Normal).
Proof.
  induction 1 as [|k dir names e Hdesc IH Hls Hin Hdir];
    intros d file prefix file' H.
  - eauto.
  - destruct (IH _ _ _ _ H) as (d' & f & p & f' & H').
    destruct d' as [|d']; [discriminate H'|].
    destruct (normal_below _ _ _ _ _ _ _ _ H' Hls Hin Hdir)
      as (f1 & p1 & f2 & Hsub).
    eauto.
Qed.

(** C6: a listing failure is not caught: the call on a directory that
    cannot be listed raises the [OSError], writing nothing; an exception
    raised by the recursive call at an entry leaves the call at once, the
    entries after it unrendered; so a run that enters, at any depth, a
    directory that cannot be listed does not return normally.  A failure
    to read a size is caught: the entry gets the status [[?]], the loop
    goes on with the entries after it, and an [OSError] that leaves
    [print_tree] always comes from a listing. *)
Theorem failure_semantics (fs : FS) :
  (forall d root file prefix code,
      listdir fs root = Err code ->
      print_tree (S d) fs root file prefix = (file, Raised (OSError code)))
  /\ (forall d root file prefix names before e rest f1 f2 x,
        listdir fs root = Ok names ->
        entries_of names = before ++ e :: rest ->
        isdir fs (join root e) = true ->
        let n := Z.of_nat (length (entries_of names)) in
        let i := Z.of_nat (length before) in
        for_enumerate (visit (print_tree d fs) fs root prefix n)
          0%Z before file = (f1, Normal) ->
        print_tree d fs (join root e)
          (f1 ++ [prefix ++ connector i n ++ e ++ lit "/" ++ nl])
          (prefix ++ extension i n) = (f2, Raised x) ->
        print_tree (S d) fs root file prefix = (f2, Raised x))
  /\ (forall root k dir code,
        descends fs root k dir ->
        listdir fs dir = Err code ->
        forall d file prefix,
          snd (print_tree d fs root file prefix) <> Normal)
  /\ (forall d root file prefix file' code,
        print_tree d fs root file prefix = (file', Raised (OSError code)) ->
        exists k dir, descends fs root k dir /\ listdir fs dir = Err code)
  /\ (forall d root file prefix names before e rest code,
        listdir fs root = Ok names ->
        entries_of names = before ++ e :: rest ->
        isdir fs (join root e) = false ->
        getsize fs (join root e) = Err code ->
        let n := Z.of_nat (length (entries_of names)) in
        let i := Z.of_nat (length before) in
        let body := visit (print_tree d fs) fs root prefix n in
        print_tree (S d) fs root file prefix =
        match for_enumerate body 0%Z before file with
        | (f1, Normal) =>
            for_enumerate body (i + 1)%Z rest
              (f1 ++ [prefix ++ connector i n ++ e ++ lit " [?]" ++ nl])
        | aborted => aborted
        end).
Proof.
  split; [|split; [|split; [|split]]].
  - intros d root file prefix code Hls. cbn [print_tree]. rewrite Hls.
    reflexivity.
  - intros d root file prefix names before e rest f1 f2 x Hls Hent Hdir
      n i Hbefore Hsub.
    rewrite (print_tree_at_entry d fs root file prefix names before rest e
               Hls Hent).
    cbv zeta. fold n i. rewrite Hbefore.
    rewrite visit_dir by exact Hdir.
    replace (entry_line fs root prefix n i e)
      with (prefix ++ connector i n ++ e ++ lit "/" ++ nl)
      by (unfold entry_line; rewrite Hdir; reflexivity).
    match goal with
    | |- (let (f0, o) := ?c in _) = _ =>
        replace c with (f2, Raised x) by (symmetry; exact Hsub)
    end.
    reflexivity.
  - intros root k dir code Hdesc Herr d file prefix Hn.
    destruct (print_tree d fs root file prefix) as [file' r] eqn:E.
    simpl in Hn; subst r.
    destruct (normal_everywhere fs root k dir Hdesc _ _ _ _ E)
      as (d' & f & p & f' & H').
    destruct d' as [|d']; [discriminate H'|].
    cbn [print_tree] in H'. rewrite Herr in H'. discriminate H'.
  - intros d root file prefix file' code H.
    eapply oserror_from_listing; eauto.
  - intros d root file prefix names before e rest code Hls Hent Hdir Hsize
      n i body.
    rewrite (print_tree_at_entry d fs root file prefix names before rest e
               Hls Hent).
    fold n i body.
    destruct (for_enumerate body 0 before file) as [f1 [|ex]];
      [|reflexivity].
    unfold body at 1. rewrite visit_file by exact Hdir.
    replace (entry_line fs root prefix n i e)
      with (prefix ++ connector i n ++ e ++ lit " [?]" ++ nl)
      by (unfold entry_line, file_line, status; rewrite Hdir, Hsize;
          reflexivity).
    reflexivity.
Qed.

(* ================================================================= *)
(** ** C10: termination *)

Lemma stable_mono fs d0 d1 dir :
  stable fs d0 dir -> (d0 <= d1)%nat -> stable fs d1 dir.
Proof.
  intros Hs Hle d Hd file prefix.
  destruct (Hs d ltac:(lia) file prefix) as [H1 H2].
  destruct (Hs d1 Hle file prefix) as [H3 _].
  split; [congruence | exact H2].
Qed.

Lemma for_enumerate_ext {A} (body1 body2 : Z -> A -> sink -> sink * outcome)
    (l : list A) :
  (forall i e f, In e l -> body1 i e f = body2 i e f) ->
  forall i file, for_enumerate body1 i l file = for_enumerate body2 i l file.
Proof.
  induction l as [|e l IH]; intros Hext i file; [reflexivity|].
  cbn [for_enumerate]. rewrite Hext by (left; reflexivity).
  destruct (body2 i e file) as [f1 [|ex]]; [|reflexivity].
  apply IH. intros; apply Hext; right; assumption.
Qed.

Lemma visit_ext rec1 rec2 fs root prefix n i e f :
  (isdir fs (join root e) = true ->
   forall f' p, rec1 (join root e) f' p = rec2 (join root e) f' p) ->
  visit rec1 fs root prefix n i e f = visit rec2 fs root prefix n i e f.
Proof.
  intros H. unfold visit. destruct (isdir fs (join root e)); auto.
Qed.

Lemma stable_bound fs root (l : list str) :
  (forall e, In e l -> isdir fs (join root e) = true ->
             exists d0, stable fs d0 (join root e)) ->
  exists D, forall e, In e l -> isdir fs (join root e) = true ->
                      stable fs D (join root e).
Proof.
  induction l as [|e l IH]; intros H.
  - exists 0%nat. intros e [].
  - destruct IH as [D HD]; [intros; apply H; [right|]; assumption|].
    destruct (isdir fs (join root e)) eqn:Edir.
    + destruct (H e (or_introl eq_refl) Edir) as [d0 Hd0].
      exists (Nat.max d0 D). intros e' [<- | Hin] Hdir.
      * eapply stable_mono; [exact Hd0 | lia].
      * eapply stable_mono; [apply HD; assumption | lia].
    + exists D. intros e' [<- | Hin] Hdir; [congruence | auto].
Qed.

Lemma height_within_finite fs h :
  forall dir, height_within h fs dir = true -> finite_below fs dir.
Proof.
  induction h as [|h IH]; intros dir H; [discriminate H|].
  constructor. intros names e Hls Hin Hdir.
  cbn [height_within] in H. rewrite Hls in H.
  rewrite forallb_forall in H. specialize (H e Hin).
  rewrite Hdir in H. apply IH. exact H.
Qed.

(** C10: when the directories entered below [root] form a finite tree,
    the recursion of [print_tree] is bounded: there is a depth [d0] such
    that the call with room for [d0] frames or more returns without
    exhausting the stack, and returns the same sink and outcome whatever
    the room beyond [d0]. *)
Theorem print_tree_terminates (fs : FS) (root : str) :
  finite_below fs root ->
  exists d0,
    forall d, (d0 <= d)%nat ->
      forall file prefix,
        print_tree d fs root file prefix = print_tree d0 fs root file prefix
        /\ snd (print_tree d fs root file prefix) <> Raised RecursionError.
Proof.
  intros Hfin. change (exists d0, stable fs d0 root).
  induction Hfin as [dir _ IH].
  destruct (listdir fs dir) as [names|code] eqn:Hls.
  - destruct (stable_bound fs dir (entries_of names)) as [D HD].
    { intros e Hin Hdir. eapply IH; eauto. }
    exists (S D). intros d Hd file prefix.
    destruct d as [|d]; [lia|].
    assert (Heq : print_tree (S d) fs dir file prefix
                  = print_tree (S D) fs dir file prefix).
    { cbn [print_tree]. rewrite Hls. cbv zeta.
      apply for_enumerate_ext. intros i e f Hin.
      apply visit_ext. intros Hdir f' p.
      destruct (HD e Hin Hdir d ltac:(lia) f' p) as [H1 _]. exact H1. }
    split; [exact Heq|].
    rewrite Heq. cbn [print_tree]. rewrite Hls. cbv zeta.
    destruct (for_enumerate _ 0%Z (entries_of names) file)
      as [file' [|x]] eqn:E; [discriminate|].
    intros Hx. simpl in Hx. inversion Hx; subst x.
    apply for_enumerate_raised in E as (j & e & f & Hin & Hb).
    apply visit_raised in Hb as [Hdir Hsub].
    destruct (HD e Hin Hdir D (le_n D)
                (f ++ [entry_line fs dir prefix
                         (Z.of_nat (length (entries_of names))) j e])
                (prefix ++ extension j
                         (Z.of_nat (length (entries_of names)))))
      as [_ Hno].
    rewrite Hsub in Hno. apply Hno. reflexivity.
  - exists 1%nat. intros d Hd file prefix.
    destruct d as [|d]; [lia|].
    cbn [print_tree]. rewrite Hls. split; [reflexivity | discriminate].
Qed.


Lemma print_tree_terminates_witness :
  exists d0,
    forall d, (d0 <= d)%nat ->
      forall file prefix,
        print_tree d scenario_fs (lit "root") file prefix
        = print_tree d0 scenario_fs (lit "root") file prefix
        /\ snd (print_tree d scenario_fs (lit "root") file prefix)
           <> Raised RecursionError.
Proof.
  apply (print_tree_terminates scenario_fs (lit "root")).
  apply (height_within_finite scenario_fs 2). reflexivity.
Defined.

(* ================================================================= *)
(** ** The sink is only appended to *)

Lemma for_enumerate_frame {A} (body : Z -> A -> sink -> sink * outcome) :
  (forall i e f, body i e f = (f ++ fst (body i e []), snd (body i e []))) ->
  forall l i file,
    for_enumerate body i l file =
    (file ++ fst (for_enumerate body i l []),
     snd (for_enumerate body i l [])).
Proof.
  intros Hb. induction l as [|e l IH]; intros i file.
  - simpl. rewrite app_nil_r. reflexivity.
  - cbn [for_enumerate]. rewrite (Hb i e file).
    destruct (body i e []) as [o1 [|x]]; cbn [fst snd].
    + rewrite (IH (i + 1)%Z (file ++ o1)), (IH (i + 1)%Z o1).
      cbn [fst snd]. rewrite app_assoc. reflexivity.
    + reflexivity.
Qed.

Lemma print_tree_frame (d : nat) (fs : FS) :
  forall root file prefix,
    print_tree d fs root file prefix =
    (file ++ fst (print_tree d fs root [] prefix),
     snd (print_tree d fs root [] prefix)).
Proof.
  induction d as [|d IHd]; intros root file prefix.
  - simpl. rewrite app_nil_r. reflexivity.
  - cbn [print_tree].
    destruct (listdir fs root) as [names|code].
    2:{ simpl. rewrite app_nil_r. reflexivity. }
    cbv zeta. apply for_enumerate_frame.
    intros i e f. unfold visit, write.
    destruct (isdir fs (join root e)).
    + rewrite (IHd _ (f ++ _)), (IHd _ ([] ++ _)). cbn [fst snd app].
      rewrite <- app_assoc. reflexivity.
    + reflexivity.
Qed.

(* ================================================================= *)
(** ** The order of a listing does not matter *)

Lemma sorted_perm_eq (l1 l2 : list str) :
  StronglySorted str_le l1 -> StronglySorted str_le l2 ->
  Permutation l1 l2 -> l1 = l2.
Proof.
  intros H1. revert l2.
  induction H1 as [|x l1 Hs1 IH Hx]; intros l2 H2 Hp.
  - apply Permutation_nil in Hp. subst; reflexivity.
  - destruct H2 as [|y l2 Hs2 Hy].
    + symmetry in Hp. apply Permutation_nil in Hp. discriminate Hp.
    + assert (x = y).
      { rewrite Forall_forall in Hx, Hy.
        assert (Hyin : In y (x :: l1))
          by (eapply Permutation_in; [symmetry; exact Hp | left; reflexivity]).
        assert (Hxin : In x (y :: l2))
          by (eapply Permutation_in; [exact Hp | left; reflexivity]).
        destruct Hyin as [-> | Hyin]; [reflexivity|].
        destruct Hxin as [-> | Hxin]; [reflexivity|].
        apply str_ltb_total.
        - apply (Hy x Hxin).
        - apply (Hx y Hyin). }
      subst y. f_equal. apply IH; [exact Hs2|].
      eapply Permutation_cons_inv; exact Hp.
Qed.

Lemma sorted_of_perm (l1 l2 : list str) :
  Permutation l1 l2 -> sorted l1 = sorted l2.
Proof.
  intros Hp. apply sorted_perm_eq; try apply sorted_le.
  rewrite !sorted_perm. exact Hp.
Qed.

Lemma print_tree_same_tree (fs1 fs2 : FS) :
  same_tree fs1 fs2 ->
  forall d root file prefix,
    print_tree d fs1 root file prefix = print_tree d fs2 root file prefix.
Proof.
  intros (Hl & Hd & Hg). induction d as [|d IHd]; intros root file prefix;
    [reflexivity|].
  cbn [print_tree]. specialize (Hl root). unfold same_listing in Hl.
  destruct (listdir fs1 root) as [l1|c1], (listdir fs2 root) as [l2|c2];
    try contradiction; [|subst; reflexivity].
  cbv zeta. unfold entries_of. rewrite (sorted_of_perm l1 l2 Hl).
  apply for_enumerate_ext. intros i e f _.
  unfold visit, status. rewrite Hd, Hg.
  destruct (isdir fs2 (join root e)); [apply IHd | reflexivity].
Qed.

(* ================================================================= *)
(** ** The header line *)

Lemma digit_not_nl (n : N) : digit n <> 10%N.
Proof. unfold digit. generalize (n mod 10)%N. intros m. lia. Qed.

Lemma strftime_no_nl (t : datetime) : ~ In 10%N (strftime t).
Proof.
  unfold strftime, pad4, pad2. cbn [app lit]. simpl.
  intros H.
  repeat (destruct H as [H | H];
          [solve [discriminate H | exact (digit_not_nl _ H)]|]).
  exact H.
Qed.

Lemma header_line_no_nl (t : datetime) :
  ~ In 10%N (lit "Generated: " ++ strftime t ++ lit " (local)").
Proof.
  rewrite !in_app_iff. intros [H | [H | H]].
  - simpl in H. repeat (destruct H as [H | H]; [discriminate H|]). exact H.
  - exact (strftime_no_nl t H).
  - simpl in H. repeat (destruct H as [H | H]; [discriminate H|]). exact H.
Qed.

Lemma drop_first_line_app (a rest : str) :
  ~ In 10%N a -> drop_first_line (a ++ nl ++ rest) = rest.
Proof.
  induction a as [|c a IH]; intros Hn; [reflexivity|].
  cbn [app drop_first_line].
  destruct (N.eqb_spec c 10) as [-> | _].
  - exfalso; apply Hn; left; reflexivity.
  - apply IH. intros H; apply Hn; right; exact H.
Qed.

Lemma drop_header (t : datetime) (rest : str) :
  drop_first_line
    (((lit "Generated: " ++ strftime t ++ lit " (local)") ++ nl ++ nl)
     ++ rest)
  = nl ++ rest.
Proof.
  rewrite <- app_assoc, <- (app_assoc nl nl rest).
  apply drop_first_line_app, header_line_no_nl.
Qed.

Lemma written_map_Write (f : sink) (t : list event) :
  written (map CallWrite f ++ t) = f ++ written t.
Proof. induction f as [|s f IH]; simpl; [|rewrite IH]; reflexivity. Qed.

(* ================================================================= *)
(** ** [main] over a sink that accepts every write *)

Lemma join_docs (root : str) :
  join root (lit "docs/") =
  root ++ (if str_eqb root [] || endswith root (lit "/") then []
           else lit "/") ++ lit "docs/".
Proof.
  unfold join. change (startswith (lit "docs/") (lit "/")) with false.
  cbv iota. destruct (str_eqb root [] || endswith root (lit "/"));
    reflexivity.
Qed.

Lemma join_project_tree (root sep : str) :
  join (root ++ sep ++ lit "docs/") (lit "project_tree.txt") =
  root ++ sep ++ lit "docs/project_tree.txt".
Proof.
  unfold join.
  change (startswith (lit "project_tree.txt") (lit "/")) with false.
  cbv iota.
  assert (E : endswith (root ++ sep ++ lit "docs/") (lit "/") = true).
  { apply endswith_iff. exists (root ++ sep ++ lit "docs").
    rewrite <- !app_assoc. reflexivity. }
  rewrite E, orb_true_r, <- !app_assoc. reflexivity.
Qed.

Lemma main_eq_shape (env : Env) : main env = main_shape env.
Proof.
  unfold main, main_shape. cbv zeta.
  remember (root_arg (argv env)) as root eqn:Hroot.
  rewrite join_docs.
  remember (if str_eqb root [] || endswith root (lit "/") then []
            else lit "/") as sep eqn:Hsep.
  destruct (makedirs env (root ++ sep ++ lit "docs/")); [|reflexivity].
  rewrite join_project_tree.
  destruct (open_w env (root ++ sep ++ lit "docs/project_tree.txt"));
    [|reflexivity].
  rewrite print_tree_frame.
  unfold write, header. cbn [app].
  replace (lit "Generated: " ++ strftime (now env) ++ lit " (local)"
           ++ nl ++ nl)
    with ((lit "Generated: " ++ strftime (now env) ++ lit " (local)")
          ++ nl ++ nl)
    by (rewrite <- !app_assoc; reflexivity).
  destruct (snd (print_tree (recursion_limit env) (fs env) root [] []));
    reflexivity.
Qed.

Lemma written_close (outfile : str) (r : outcome) :
  written (CallClose :: match r with
                    | Normal => [CallPrint (lit "Saved tree to " ++ outfile)]
                    | Raised _ => []
                    end) = [].
Proof. destruct r; reflexivity. Qed.

(* ================================================================= *)
(** ** The file that can refuse a write *)

Lemma utf8_app (a b : str) :
  utf8 (a ++ b) =
  match utf8 a, utf8 b with
  | Some x, Some y => Some (x ++ y)
  | _, _ => None
  end.
Proof.
  induction a as [|c a IH]; cbn [app utf8].
  - destruct (utf8 b); reflexivity.
  - rewrite IH.
    destruct (utf8_char c), (utf8 a), (utf8 b); try reflexivity.
    rewrite app_assoc. reflexivity.
Qed.

Lemma file_write_ok (dev : Device) (f f' : textfile) (s : str) :
  file_write dev f s = (f', None) ->
  calls f' = write (calls f) s /\ (consistent f -> consistent f').
Proof.
  unfold file_write. intros H.
  destruct (utf8 s) as [b|] eqn:Es; [|discriminate H].
  destruct (write_error dev (length (calls f))); [discriminate H|].
  inversion H; subst f'; clear H. cbn [calls stored].
  split; [reflexivity|].
  unfold consistent, content. cbn [calls stored]. intros Hc.
  rewrite concat_app, utf8_app, Hc. cbn [concat].
  rewrite app_nil_r, Es. reflexivity.
Qed.

Lemma loop_on_ideal {A : Type}
    (body_on : Z -> A -> textfile -> textfile * ending)
    (body : Z -> A -> sink -> sink * outcome) (l : list A) :
  (forall i x f f' e o,
      body_on i x f = (f', e) -> ideal e = Some o ->
      body i x (calls f) = (calls f', o)
      /\ (consistent f -> consistent f')) ->
  forall i f f' e o,
    for_enumerate_on body_on i l f = (f', e) -> ideal e = Some o ->
    for_enumerate body i l (calls f) = (calls f', o)
    /\ (consistent f -> consistent f').
Proof.
  intros Hbody.
  induction l as [|x l IH]; intros i f f' e o Hrun Hid.
  - cbn in Hrun. inversion Hrun; subst. cbn in Hid. inversion Hid; subst.
    split; [reflexivity | auto].
  - cbn [for_enumerate_on for_enumerate] in *.
    destruct (body_on i x f) as [f1 e1] eqn:E1.
    destruct e1 as [|x1|w1].
    + destruct (Hbody _ _ _ _ _ Normal E1 eq_refl) as [Hb Hc].
      rewrite Hb.
      destruct (IH _ _ _ _ _ Hrun Hid) as [Hl Hc'].
      split; [exact Hl | auto].
    + inversion Hrun; subst. cbn in Hid. inversion Hid; subst.
      destruct (Hbody _ _ _ _ _ (Raised x1) E1 eq_refl) as [Hb Hc].
      rewrite Hb. split; [reflexivity | exact Hc].
    + inversion Hrun; subst. discriminate Hid.
Qed.

(** A call that no write cuts short is the call over a sink that
    accepts every write, and the bytes stored stay the encoding of what
    was written. *)
Lemma print_tree_on_ideal (dev : Device) (fs : FS) (d : nat) :
  forall root f prefix f' e o,
    print_tree_on d dev fs root f prefix = (f', e) -> ideal e = Some o ->
    print_tree d fs root (calls f) prefix = (calls f', o)
    /\ (consistent f -> consistent f').
Proof.
  induction d as [|d IHd]; intros root f prefix f' e o Hrun Hid.
  - cbn in Hrun. inversion Hrun; subst. cbn in Hid. inversion Hid; subst.
    split; [reflexivity | auto].
  - cbn [print_tree_on print_tree] in *.
    destruct (listdir fs root) as [names|code].
    + revert Hrun Hid. apply loop_on_ideal.
      clear f f' e o. intros i x f f' e o Hb Hid.
      unfold visit_on in Hb. unfold visit.
      destruct (isdir fs (join root x)).
      * destruct (file_write dev f _) as [f1 [w|]] eqn:Ew.
        { inversion Hb; subst. discriminate Hid. }
        destruct (file_write_ok _ _ _ _ Ew) as [Hc1 Hk1].
        rewrite <- Hc1.
        destruct (IHd _ _ _ _ _ _ Hb Hid) as [Hr Hk].
        split; [exact Hr | auto].
      * destruct (file_write dev f _) as [f1 [w|]] eqn:Ew.
        { inversion Hb; subst. discriminate Hid. }
        destruct (file_write_ok _ _ _ _ Ew) as [Hc1 Hk1].
        inversion Hb; subst. cbn in Hid. inversion Hid; subst.
        rewrite <- Hc1. split; [reflexivity | exact Hk1].
    + inversion Hrun; subst. cbn in Hid. inversion Hid; subst.
      split; [reflexivity | auto].
Qed.

(* ================================================================= *)
(** ** Places on the disk *)

Lemma key_eqb_eq (a b : list str) : key_eqb a b = true <-> a = b.
Proof.
  revert b. induction a as [|x a IH]; intros [|y b]; cbn [key_eqb];
    try (split; [discriminate | discriminate]); [tauto|].
  rewrite andb_true_iff, str_eqb_eq, IH.
  split; [intros [-> ->]; reflexivity | intros H; inversion H; auto].
Qed.

Lemma key_eqb_refl (a : list str) : key_eqb a a = true.
Proof. apply key_eqb_eq. reflexivity. Qed.

Lemma key_eqb_neq (a b : list str) : a <> b -> key_eqb a b = false.
Proof.
  intros H. destruct (key_eqb a b) eqn:E; [|reflexivity].
  apply key_eqb_eq in E. contradiction.
Qed.

Lemma node_at_put_other (d : disk) (k k' : list str) (n : node) :
  k' <> k -> node_at (put d k n) k' = node_at d k'.
Proof.
  intros H. unfold node_at, put. rewrite (key_eqb_neq _ _ H). reflexivity.
Qed.

Lemma node_at_put_directory (d : disk) (k : list str) :
  node_at (put d k Directory) k = Some Directory.
Proof.
  unfold node_at, put. rewrite key_eqb_refl.
  destruct (key_eqb k [] || key_eqb k [lit "/"]); reflexivity.
Qed.

Lemma make_all_keeps (ks : list (list str)) :
  forall d d', make_all d ks = Ok d' ->
  forall k n, node_at d k = Some n -> node_at d' k = Some n.
Proof.
  induction ks as [|a ks IH]; intros d d' H k n Hk; cbn [make_all] in H.
  - inversion H; subst. exact Hk.
  - destruct (node_at d a) as [[|data]|] eqn:Ea.
    + exact (IH _ _ H _ _ Hk).
    + discriminate H.
    + apply (IH _ _ H). rewrite node_at_put_other; [exact Hk|].
      intros ->. rewrite Ea in Hk. discriminate Hk.
Qed.

Lemma make_all_makes (ks : list (list str)) :
  forall d d', make_all d ks = Ok d' ->
  forall k, In k ks -> node_at d' k = Some Directory.
Proof.
  induction ks as [|a ks IH]; intros d d' H k Hin; [destruct Hin|].
  cbn [make_all] in H.
  destruct (node_at d a) as [[|data]|] eqn:Ea; [| discriminate H |].
  - destruct Hin as [<- | Hin].
    + exact (make_all_keeps _ _ _ H _ _ Ea).
    + exact (IH _ _ H _ Hin).
  - destruct Hin as [<- | Hin].
    + apply (make_all_keeps _ _ _ H). apply node_at_put_directory.
    + exact (IH _ _ H _ Hin).
Qed.

Lemma make_all_only (ks : list (list str)) :
  forall d d', make_all d ks = Ok d' ->
  forall k, ~ In k ks -> d' k = d k.
Proof.
  induction ks as [|a ks IH]; intros d d' H k Hin; cbn [make_all] in H.
  - inversion H; subst. reflexivity.
  - destruct (node_at d a) as [[|data]|] eqn:Ea; [| discriminate H |].
    + apply (IH _ _ H). intros Hk. apply Hin. right. exact Hk.
    + rewrite (IH _ _ H) by (intros Hk; apply Hin; right; exact Hk).
      unfold put. rewrite key_eqb_neq; [reflexivity|].
      intros ->. apply Hin. left. reflexivity.
Qed.

Lemma places_to_length (k above x : list str) :
  In x (places_to above k) -> (length x <= length above + length k)%nat.
Proof.
  revert above. induction k as [|c k IH]; intros above Hin; [destruct Hin|].
  cbn [places_to] in Hin. cbn [length]. destruct Hin as [<- | Hin].
  - rewrite length_app. cbn [length]. lia.
  - apply IH in Hin. rewrite length_app in Hin. cbn [length] in Hin. lia.
Qed.

Lemma places_to_last (k above : list str) (c : str) :
  In (above ++ k ++ [c]) (places_to above (k ++ [c])).
Proof.
  revert above. induction k as [|x k IH]; intros above; cbn [app places_to].
  - left. reflexivity.
  - right. specialize (IH (above ++ [x])).
    rewrite <- app_assoc in IH. exact IH.
Qed.

(* ================================================================= *)
(** ** The place of the report *)

Lemma split_slash_nonempty (p : str) : split_slash p <> [].
Proof.
  destruct p as [|c p]; cbn [split_slash]; [discriminate|].
  destruct (c =? 47)%N; [discriminate|].
  destruct (split_slash p); discriminate.
Qed.

Lemma split_slash_app (a b : str) :
  split_slash (a ++ 47%N :: b) = split_slash a ++ split_slash b.
Proof.
  induction a as [|c a IH]; [reflexivity|].
  cbn [app split_slash]. rewrite IH.
  destruct (c =? 47)%N; [reflexivity|].
  pose proof (split_slash_nonempty a) as Hne.
  destruct (split_slash a) as [|x xs]; [contradiction|reflexivity].
Qed.

Lemma components_app (a b : str) :
  components (a ++ 47%N :: b) = components a ++ components b.
Proof. unfold components. rewrite split_slash_app. apply filter_app. Qed.

Lemma startswith_slash_app (a b : str) :
  startswith (a ++ 47%N :: b) (lit "/") = startswith (a ++ [47%N]) (lit "/").
Proof. destruct a; reflexivity. Qed.

Lemma path_key_app (a b : str) :
  path_key (a ++ 47%N :: b) = path_key (a ++ [47%N]) ++ components b.
Proof.
  unfold path_key.
  rewrite startswith_slash_app, !components_app, <- !app_assoc.
  reflexivity.
Qed.

(** The root path and the separator [join] puts after it, as a stem
    before a slash, unless they are empty. *)
Lemma root_stem (root : str) :
  let sep :=
    if str_eqb root [] || endswith root (lit "/") then [] else lit "/" in
  root ++ sep = [] \/ exists stem, root ++ sep = stem ++ [47%N].
Proof.
  cbv zeta.
  destruct (str_eqb root []) eqn:E0.
  - apply str_eqb_eq in E0. subst root. left. reflexivity.
  - cbn [orb]. right. destruct (endswith root (lit "/")) eqn:E1.
    + apply endswith_iff in E1 as [stem ->]. exists stem.
      rewrite app_nil_r. reflexivity.
    + exists root. reflexivity.
Qed.

(** The report is [project_tree.txt] in [docs]. *)
Lemma report_place (root : str) :
  let outdir := join root (lit "docs/") in
  let outfile := join outdir (lit "project_tree.txt") in
  exists parent,
    path_key outdir = parent ++ [lit "docs"]
    /\ path_key outfile = parent ++ [lit "docs"; lit "project_tree.txt"].
Proof.
  cbv zeta. rewrite join_docs, join_project_tree.
  remember (if str_eqb root [] || endswith root (lit "/") then []
            else lit "/") as sep eqn:Hsep.
  pose proof (root_stem root) as Hstem. cbv zeta in Hstem.
  rewrite <- Hsep in Hstem.
  rewrite !(app_assoc root sep).
  destruct Hstem as [-> | [stem ->]].
  - exists []. split; reflexivity.
  - exists (path_key (stem ++ [47%N])).
    rewrite <- !app_assoc. cbn [app].
    rewrite (path_key_app stem (lit "docs/")),
      (path_key_app stem (lit "docs/project_tree.txt")).
    split; reflexivity.
Qed.

(* ================================================================= *)
(** ** C8: the report on the disk *)

Lemma os_makedirs_ok (env : Env) (d d1 : disk) (p : str) :
  os_makedirs env d p = Ok d1 ->
  makedirs env p = Ok tt /\ make_all d (places_to [] (path_key p)) = Ok d1.
Proof.
  unfold os_makedirs. destruct (makedirs env p) as [[]|code];
    [auto | discriminate].
Qed.

Lemma os_open_w_ok (env : Env) (d d2 : disk) (p : str) :
  os_open_w env d p = Ok d2 ->
  open_w env p = Ok tt /\ d2 = put d (path_key p) (Regular []).
Proof.
  unfold os_open_w. destruct (open_w env p) as [[]|code]; [|discriminate].
  destruct (node_at d (path_key p)) as [[|data]|];
    [discriminate | |];
    (destruct (node_at d (removelast (path_key p))) as [[|data']|];
     [|discriminate|discriminate]);
    intros H; inversion H; auto.
Qed.

Lemma with_block_ideal (env : Env) (dev : Device) (root : str)
    (f : textfile) (e : ending) (o : outcome) :
  with_block env dev root = (f, e) -> ideal e = Some o ->
  print_tree (recursion_limit env) (fs env) root
    (write (write [] (header (now env)))
           (basename (abspath env root) ++ lit "/" ++ nl)) []
  = (calls f, o)
  /\ consistent f.
Proof.
  unfold with_block. intros H Hid.
  destruct (file_write dev _ (header (now env))) as [f1 [w|]] eqn:E1.
  { inversion H; subst. discriminate Hid. }
  destruct (file_write dev f1 _) as [f2 [w|]] eqn:E2.
  { inversion H; subst. discriminate Hid. }
  destruct (file_write_ok _ _ _ _ E1) as [C1 K1].
  destruct (file_write_ok _ _ _ _ E2) as [C2 K2].
  cbn [calls] in C1. rewrite C1 in C2. rewrite <- C2.
  destruct (print_tree_on_ideal _ _ _ _ _ _ _ _ _ H Hid) as [Hr Hk].
  split; [exact Hr|]. apply Hk, K2, K1. reflexivity.
Qed.

Lemma close_file_how (dev : Device) (d : disk) (outdir outfile : str)
    (f : textfile) (body : ending) (o : outcome) :
  how (close_file dev d outdir outfile f body) = ended o ->
  close_file dev d outdir outfile f body =
  {| events :=
       [CallMakedirs outdir true; CallOpen outfile (lit "w") (lit "utf-8")]
       ++ map CallWrite (calls f)
       ++ CallClose
       :: match o with
          | Normal => [CallPrint (lit "Saved tree to " ++ outfile)]
          | Raised _ => []
          end;
     how := ended o;
     disk_after := put d (path_key outfile) (Regular (stored f)) |}
  /\ ideal body = Some o.
Proof.
  unfold close_file. cbn [how].
  destruct (close_error dev) as [code|]; [destruct o; discriminate|].
  destruct body as [|x|w], o as [|y]; cbn [ended]; intros H;
    try discriminate H; inversion H; subst; split; reflexivity.
Qed.

Lemma close_file_print (dev : Device) (d : disk) (outdir outfile : str)
    (f : textfile) (body : ending) (s : str) :
  In (CallPrint s) (events (close_file dev d outdir outfile f body)) ->
  how (close_file dev d outdir outfile f body) = Done.
Proof.
  unfold close_file. cbn [events how].
  set (h := match close_error dev with
            | Some code => CloseRaised code
            | None => _
            end).
  cbn [app In]. intros [H | [H | H]]; try discriminate H.
  apply in_app_or in H as [H | [H | H]].
  - apply in_map_iff in H as [x [H _]]. discriminate H.
  - discriminate H.
  - destruct h; solve [reflexivity | destruct H].
Qed.

(** C8 (amended): the root path is the first argument of the command
    line, or [.] without one; the report goes to
    [join(join(root, "docs/"), "project_tree.txt")], which is the root
    path, a [/] unless the root path is empty or ends with one, and
    [docs/project_tree.txt]: the file [project_tree.txt] of the
    directory [docs].  When [os.makedirs] or [open] raises, nothing is
    written and the place of the report holds what it held.  In every
    run in which [os.makedirs], [open], every write and the close
    succeed (the traversal may still end with an exception of its own),
    [docs] and
    the directories on the way to it are directories afterwards, and the
    place of the report holds, whatever it held, the UTF-8 encoding of
    the text: the line [Generated: <timestamp> (local)], an empty line,
    the name of the root directory followed by [/], then the lines of
    the tree.  [Saved tree to ...] is printed only after a [with] block
    that no exception left.  The clock is one of the years 1000 to
    9999. *)
Theorem report_on_disk (env : Env) (dev : Device) (d : disk) :
  clock_valid (now env) ->
  let root := root_arg (argv env) in
  let sep :=
    if str_eqb root [] || endswith root (lit "/") then [] else lit "/" in
  let outdir := join root (lit "docs/") in
  let outfile := join outdir (lit "project_tree.txt") in
  let first_line :=
    lit "Generated: " ++ strftime (now env) ++ lit " (local)" in
  let root_name := basename (abspath env root) in
  let tree := print_tree (recursion_limit env) (fs env) root [] [] in
  let r := main_on_disk env dev d in
  ((length (argv env) <= 1)%nat -> root = lit ".")
  /\ (forall prog a rest, argv env = prog :: a :: rest -> root = a)
  /\ outfile = root ++ sep ++ lit "docs/project_tree.txt"
  /\ (exists parent,
        path_key outdir = parent ++ [lit "docs"]
        /\ path_key outfile = parent ++ [lit "docs"; lit "project_tree.txt"])
  /\ (forall code,
        how r = MakedirsRaised code \/ how r = OpenRaised code ->
        written (events r) = []
        /\ disk_after r (path_key outfile) = d (path_key outfile))
  /\ (forall s, In (CallPrint s) (events r) -> how r = Done)
  /\ (forall o,
        how r = ended o ->
        main env = (events r, o)
        /\ snd tree = o
        /\ report env =
           first_line ++ nl ++ nl ++ (root_name ++ lit "/" ++ nl)
           ++ content (fst tree)
        /\ ~ In 10%N first_line
        /\ (forall k, In k (places_to [] (path_key outdir)) ->
                      node_at (disk_after r) k = Some Directory)
        /\ node_at (disk_after r) (path_key outdir) = Some Directory
        /\ exists bytes,
             utf8 (report env) = Some bytes
             /\ disk_after r (path_key outfile) = Some (Regular bytes)).
Proof.
  intros _ root sep outdir outfile first_line root_name tree r.
  assert (Eoutdir : outdir = root ++ sep ++ lit "docs/")
    by apply join_docs.
  assert (Eoutfile : outfile = root ++ sep ++ lit "docs/project_tree.txt").
  { unfold outfile. rewrite Eoutdir. apply join_project_tree. }
  destruct (report_place root) as [parent [Kd Kf]].
  fold outdir in Kd, Kf. fold outfile in Kf.
  assert (Hdf : path_key outdir <> path_key outfile).
  { rewrite Kd, Kf. intros H. apply (f_equal (@length str)) in H.
    rewrite !length_app in H. cbn [length] in H. lia. }
  assert (Hout : ~ In (path_key outfile) (places_to [] (path_key outdir))).
  { intros H. apply places_to_length in H. rewrite Kd, Kf in H.
    rewrite !length_app in H. cbn [length] in H. lia. }
  assert (Hlast : In (path_key outdir) (places_to [] (path_key outdir))).
  { rewrite Kd. exact (places_to_last parent [] (lit "docs")). }
  split; [|split; [|split; [exact Eoutfile|split]]].
  { intros Hlen. unfold root, root_arg.
    destruct (Z.ltb_spec 1 (Z.of_nat (length (argv env))));
      [lia|reflexivity]. }
  { intros prog a rest Hargs. unfold root, root_arg. rewrite Hargs.
    cbn [length nth].
    destruct (Z.ltb_spec 1 (Z.of_nat (S (S (length rest)))));
      [reflexivity|lia]. }
  { exists parent. split; assumption. }
  unfold r, main_on_disk. cbv zeta. fold root. fold outdir. fold outfile.
  destruct (os_makedirs env d outdir) as [d1|code] eqn:Emk.
  2:{ cbn [events how disk_after].
      split; [intros; split; reflexivity|].
      split; [intros s [H|[]]; discriminate H|].
      intros [|e] H; discriminate H. }
  apply os_makedirs_ok in Emk as [Hmk Hall].
  destruct (os_open_w env d1 outfile) as [d2|code] eqn:Eop.
  2:{ cbn [events how disk_after].
      split; [intros; split;
              [reflexivity | exact (make_all_only _ _ _ Hall _ Hout)]|].
      split; [intros s [H|[H|[]]]; discriminate H|].
      intros [|e] H; discriminate H. }
  apply os_open_w_ok in Eop as [Hop ->].
  destruct (with_block env dev root) as [f e] eqn:Eblock.
  split; [|split].
  - intros code [H | H]; exfalso; revert H; unfold close_file; cbn [how];
      destruct (close_error dev); [discriminate| |discriminate|];
      destruct e; discriminate.
  - apply close_file_print.
  - intros o Hhow.
    apply close_file_how in Hhow as [-> Hid]. cbn [events how disk_after].
    destruct (with_block_ideal _ _ _ _ _ _ Eblock Hid) as [Hrun Hcons].
    assert (Hmain : main env =
              ([CallMakedirs outdir true;
                CallOpen outfile (lit "w") (lit "utf-8")]
               ++ map CallWrite (calls f)
               ++ CallClose
               :: match o with
                  | Normal => [CallPrint (lit "Saved tree to " ++ outfile)]
                  | Raised _ => []
                  end, o)).
    { unfold main. cbv zeta. fold root. fold outdir. fold outfile.
      rewrite Hmk, Hop. fold root_name in Hrun |- *. rewrite Hrun.
      destruct o; reflexivity. }
    pose proof (main_eq_shape env) as Hshape.
    unfold main_shape in Hshape. cbv zeta in Hshape.
    fold root in Hshape. fold sep in Hshape.
    rewrite <- Eoutdir, <- Eoutfile in Hshape.
    fold first_line root_name tree in Hshape.
    rewrite Hmk, Hop in Hshape.
    assert (Hsnd : snd tree = o).
    { rewrite Hmain in Hshape. inversion Hshape. congruence. }
    assert (Hreport : report env = content (calls f)).
    { unfold report. rewrite Hmain. cbn [fst app written].
      rewrite written_map_Write, written_close, app_nil_r. reflexivity. }
    split; [exact Hmain|]. split; [exact Hsnd|].
    split.
    { unfold report. rewrite Hshape. cbn [fst app written].
      rewrite written_map_Write. unfold content. cbn [concat].
      rewrite written_close, app_nil_r, <- !app_assoc. reflexivity. }
    split; [apply header_line_no_nl|].
    assert (Hdirs : forall k, In k (places_to [] (path_key outdir)) ->
              node_at (put (put d1 (path_key outfile) (Regular []))
                           (path_key outfile) (Regular (stored f))) k
              = Some Directory).
    { intros k Hk.
      rewrite !node_at_put_other
        by (intros ->; exact (Hout Hk)).
      exact (make_all_makes _ _ _ Hall _ Hk). }
    split; [exact Hdirs|]. split; [exact (Hdirs _ Hlast)|].
    exists (stored f). split.
    + rewrite Hreport. exact Hcons.
    + unfold put. rewrite key_eqb_refl. reflexivity.
Qed.

(** The theorem at a disk that already holds a report: the run
    replaces it. *)
Lemma report_on_disk_witness :
  clock_valid sample_time
  /\ old_report_disk (path_key (lit "root/docs/project_tree.txt"))
     = Some (Regular [111%N; 108%N; 100%N])
  /\ exists bytes,
       utf8 (report (sample_env scenario_fs sample_time)) = Some bytes
       /\ disk_after
            (main_on_disk (sample_env scenario_fs sample_time) sound_device
                          old_report_disk)
            (path_key (lit "root/docs/project_tree.txt"))
          = Some (Regular bytes).
Proof.
  assert (Hclock : clock_valid sample_time)
    by (unfold clock_valid, sample_time; cbn; lia).
  split; [exact Hclock|]. split; [reflexivity|].
  pose proof (report_on_disk (sample_env scenario_fs sample_time)
                sound_device old_report_disk Hclock) as H.
  cbv zeta in H.
  destruct H as (_ & _ & _ & _ & _ & _ & H).
  assert (E : how (main_on_disk (sample_env scenario_fs sample_time)
                     sound_device old_report_disk) = ended Normal)
    by (vm_compute; reflexivity).
  destruct (H Normal E) as (_ & _ & _ & _ & _ & _ & bytes & Hb & Hd).
  exists bytes. split; [exact Hb | exact Hd].
Defined.

(** C8 as stated does not hold of every invocation.  Where [docs]
    under the root is a regular file, [os.makedirs] raises
    [FileExistsError]: no directory is made, nothing is opened or
    written, and there is no report.  With the empty string for root
    path the report is at [docs/project_tree.txt] under the working
    directory, not at [/docs/project_tree.txt].  Where a name cannot be
    encoded, the write of its line raises [UnicodeEncodeError]: the file
    holds the text up to the line before, and the run ends with the
    exception.  Where the device has no room, the close raises
    [OSError] and the file is left empty. *)
Lemma report_not_always_written :
  (let r := main_on_disk (sample_env scenario_fs sample_time) sound_device
                         docs_is_a_file in
   how r = MakedirsRaised EEXIST
   /\ events r = [CallMakedirs (lit "root/docs/") true]
   /\ disk_after r (path_key (lit "root/docs")) = Some (Regular [104%N; 105%N])
   /\ disk_after r (path_key (lit "root/docs/project_tree.txt")) = None)
  /\ (let r := main_on_disk empty_root_env sound_device empty_disk in
      root_arg (argv empty_root_env) = []
      /\ In (CallOpen (lit "docs/project_tree.txt") (lit "w") (lit "utf-8"))
            (events r)
      /\ disk_after r (path_key (lit "/docs/project_tree.txt")) = None
      /\ disk_after r (path_key (lit "docs/project_tree.txt")) <> None)
  /\ (let r := main_on_disk (sample_env surrogate_fs sample_time)
                            sound_device empty_disk in
      how r = WriteRaised UnicodeEncodeError
      /\ exists bytes,
           disk_after r (path_key (lit "root/docs/project_tree.txt"))
           = Some (Regular bytes)
           /\ utf8 (header sample_time ++ lit "root/" ++ nl
                    ++ connector_mid ++ lit "a.txt [OK]" ++ nl)
              = Some bytes
           /\ utf8 (report (sample_env surrogate_fs sample_time)) = None)
  /\ (let r := main_on_disk (sample_env scenario_fs sample_time)
                            full_device empty_disk in
      how r = CloseRaised ENOSPC
      /\ disk_after r (path_key (lit "root/docs/project_tree.txt"))
         = Some (Regular [])).
Proof.
  split; [|split; [|split]].
  - vm_compute. repeat split; reflexivity.
  - cbv zeta. split; [reflexivity|]. split; [vm_compute; tauto|].
    split; [vm_compute; reflexivity|]. vm_compute. discriminate.
  - cbv zeta. split; [vm_compute; reflexivity|].
    eexists. split; [vm_compute; reflexivity|].
    split; vm_compute; reflexivity.
  - cbv zeta. split; vm_compute; reflexivity.
Qed.

(* ================================================================= *)
(** ** C9: two runs over the same tree *)

(** C9: two runs given the same command line and working directory,
    over file systems that hold the same tree (the same answers, the
    names of each listing in any order), end alike and make the same
    calls, except for the write of the timestamp line; the texts of the
    two reports are equal after their first line. *)
Theorem report_deterministic (env1 env2 : Env) :
  argv env1 = argv env2 ->
  (forall p, abspath env1 p = abspath env2 p) ->
  (forall p, makedirs env1 p = makedirs env2 p) ->
  (forall p, open_w env1 p = open_w env2 p) ->
  recursion_limit env1 = recursion_limit env2 ->
  same_tree (fs env1) (fs env2) ->
  snd (main env1) = snd (main env2)
  /\ Forall2 (fun a b => a = b \/ (a = CallWrite (header (now env1))
                                   /\ b = CallWrite (header (now env2))))
       (fst (main env1)) (fst (main env2))
  /\ drop_first_line (report env1) = drop_first_line (report env2).
Proof.
  intros Hargv Habs Hmk Hop Hlim Htree.
  unfold report. rewrite (main_eq_shape env1), (main_eq_shape env2).
  unfold main_shape. cbv zeta.
  rewrite <- Hargv, <- Hlim, <- (print_tree_same_tree _ _ Htree).
  remember (root_arg (argv env1)) as root eqn:Hroot.
  remember (if str_eqb root [] || endswith root (lit "/") then []
            else lit "/") as sep eqn:Hsep.
  rewrite <- Hmk, <- Hop, <- Habs.
  remember (print_tree (recursion_limit env1) (fs env1) root [] [])
    as tree eqn:Htr.
  destruct (makedirs env1 _) as [[]|code].
  2:{ cbn [fst snd]. repeat split; auto. }
  destruct (open_w env1 _) as [[]|code].
  2:{ cbn [fst snd]. repeat split; auto. }
  cbn [fst snd]. split; [reflexivity|]. split.
  - cbn [app]. constructor; [left; reflexivity|].
    constructor; [left; reflexivity|].
    constructor.
    { right. unfold header. rewrite <- !app_assoc. split; reflexivity. }
    match goal with
    | |- Forall2 _ ?l ?l => generalize l
    end.
    intros l. induction l; constructor; auto.
  - cbn [app written]. rewrite !written_map_Write, !written_close.
    unfold content. cbn [concat].
    rewrite !drop_header. reflexivity.
Qed.

Lemma scenario_same_tree : same_tree scenario_fs scenario_fs_reordered.
Proof.
  split; [|split]; intros p; cbn;
    repeat match goal with
           | |- context [str_eqb p ?q] => destruct (str_eqb p q)
           end;
    cbn; try reflexivity; try apply Permutation_refl.
  exact (Permutation_rev
           [lit "sub"; lit "build"; lit "b.txt"; lit "X.class"; lit "a.txt"]).
Qed.

Lemma report_deterministic_witness :
  snd (main (sample_env scenario_fs sample_time))
  = snd (main (sample_env scenario_fs_reordered later_time))
  /\ Forall2 (fun a b => a = b \/ (a = CallWrite (header sample_time)
                                   /\ b = CallWrite (header later_time)))
       (fst (main (sample_env scenario_fs sample_time)))
       (fst (main (sample_env scenario_fs_reordered later_time)))
  /\ drop_first_line (report (sample_env scenario_fs sample_time))
     = drop_first_line (report (sample_env scenario_fs_reordered later_time)).
Proof.
  apply (report_deterministic (sample_env scenario_fs sample_time)
           (sample_env scenario_fs_reordered later_time));
    try reflexivity.
  exact scenario_same_tree.
Defined.

(* ================================================================= *)
(** ** The scenarios of the specification, run *)

Example scenario_rendering :
  print_tree 10 scenario_fs (lit "root") [] [] =
  ([ connector_mid ++ lit "a.txt [EMPTY]" ++ nl;
     connector_mid ++ lit "b.txt [OK]" ++ nl;
     connector_last ++ lit "sub/" ++ nl;
     extension_last ++ connector_last ++ lit "c.txt [OK]" ++ nl ],
   Normal).
Proof. reflexivity. Qed.

Example artifacts_rendering :
  print_tree 10 artifacts_fs (lit "r") [] [] = ([], Normal).
Proof. reflexivity. Qed.

Example vanished_rendering :
  print_tree 10 vanished_fs (lit "r") [] [] =
  ([ connector_mid ++ lit "x [EMPTY]" ++ nl;
     connector_mid ++ lit "y [?]" ++ nl;
     connector_last ++ lit "z [OK]" ++ nl ],
   Normal).
Proof. reflexivity. Qed.

Example unreadable_rendering :
  print_tree 10 unreadable_fs (lit "r") [] [] =
  ([ connector_mid ++ lit "a/" ++ nl ], Raised (OSError EACCES)).
Proof. reflexivity. Qed.

Example sample_report :
  report (sample_env scenario_fs sample_time) =
  lit "Generated: 2024-03-09 14:05:59 (local)" ++ nl
  ++ nl
  ++ lit "root/" ++ nl
  ++ connector_mid ++ lit "a.txt [EMPTY]" ++ nl
  ++ connector_mid ++ lit "b.txt [OK]" ++ nl
  ++ connector_last ++ lit "sub/" ++ nl
  ++ extension_last ++ connector_last ++ lit "c.txt [OK]" ++ nl.
Proof. reflexivity. Qed.

Example default_root :
  root_arg [lit "DumpTree.py"] = lit "."
  /\ join (join (lit ".") (lit "docs/")) (lit "project_tree.txt")
     = lit "./docs/project_tree.txt".
Proof. split; reflexivity. Qed.

(** Without the hypothesis of C10 the recursion need not stop by
    itself: over answers without a bottom, as [loop_fs] gives, every
    call exhausts the stack, whatever its room. *)
Lemma cycle_exhausts_stack (d : nat) :
  forall root file prefix,
    snd (print_tree d loop_fs root file prefix) = Raised RecursionError.
Proof.
  induction d as [|d IH]; intros root file prefix; [reflexivity|].
  cbn [print_tree loop_fs listdir]. cbv zeta.
  change (entries_of [lit "l"]) with [lit "l"].
  cbn [for_enumerate]. rewrite visit_dir by reflexivity.
  specialize (IH (join root (lit "l"))
                (file ++ [entry_line loop_fs root prefix 1 0 (lit "l")])
                (prefix ++ extension 0 1)).
  cbn [length Z.of_nat Pos.of_succ_nat].
  destruct (print_tree d loop_fs (join root (lit "l")) _ _) as [f r].
  simpl in IH. subst r. reflexivity.
Qed.

(* ================================================================= *)
(** ** Further properties: what a call that returns has written *)

Lemma nth_error_enumerate_from {A} (l : list A) (i : nat) (e : A) (j : Z) :
  nth_error l i = Some e ->
  In ((j + Z.of_nat i)%Z, e) (enumerate_from j l).
Proof.
  revert i j; induction l as [|x l IH]; intros [|i] j H;
    try discriminate H.
  - inversion H; subst. left. f_equal. simpl. lia.
  - right. replace (j + Z.of_nat (S i))%Z with (j + 1 + Z.of_nat i)%Z by lia.
    apply IH. exact H.
Qed.

(** A loop that returns normally has appended, entry by entry, the line
    of the entry and then what the recursive call wrote below it, each
    recursive call having returned normally. *)
Lemma loop_blocks (d : nat) (fs : FS) (root prefix : str) (n : Z) :
  forall l i file file',
    for_enumerate (visit (print_tree d fs) fs root prefix n) i l file
      = (file', Normal) ->
    file' = file ++ flat_map (subtree_lines d fs root prefix n)
                             (enumerate_from i l)
    /\ Forall (fun ie =>
                 isdir fs (join root (snd ie)) = true ->
                 snd (print_tree d fs (join root (snd ie)) []
                        (prefix ++ extension (fst ie) n)) = Normal)
              (enumerate_from i l).
Proof.
  induction l as [|e l IHl]; intros i file file' H.
  - inversion H; subst. simpl. rewrite app_nil_r. auto.
  - cbn [for_enumerate] in H. cbn [enumerate_from flat_map].
    unfold subtree_lines at 1. cbn [fst snd].
    destruct (isdir fs (join root e)) eqn:Edir.
    + rewrite visit_dir in H by exact Edir.
      rewrite print_tree_frame in H.
      destruct (print_tree d fs (join root e) [] (prefix ++ extension i n))
        as [sub r2] eqn:Esub.
      cbn [fst snd] in H. destruct r2 as [|x]; [|discriminate H].
      apply IHl in H as [-> HF]. split.
      * cbn [fst]. rewrite <- !app_assoc. reflexivity.
      * constructor; [|exact HF]. cbn [fst snd]. intros _.
        rewrite Esub. reflexivity.
    + rewrite visit_file in H by exact Edir.
      apply IHl in H as [-> HF]. split.
      * rewrite <- !app_assoc. reflexivity.
      * constructor; [|exact HF]. cbn [fst snd]. intros Hd. congruence.
Qed.

Lemma print_tree_blocks (d : nat) (fs : FS) root file prefix file' names :
  listdir fs root = Ok names ->
  print_tree (S d) fs root file prefix = (file', Normal) ->
  let n := Z.of_nat (length (entries_of names)) in
  file' = file ++ flat_map (subtree_lines d fs root prefix n)
                           (enumerate_from 0%Z (entries_of names))
  /\ Forall (fun ie =>
               isdir fs (join root (snd ie)) = true ->
               snd (print_tree d fs (join root (snd ie)) []
                      (prefix ++ extension (fst ie) n)) = Normal)
            (enumerate_from 0%Z (entries_of names)).
Proof.
  intros Hls H. cbn [print_tree] in H. rewrite Hls in H. cbv zeta in H.
  apply loop_blocks in H. exact H.
Qed.

(** In a run that returns normally, the call on each directory entered
    returned normally too, with the room the levels above left it, and
    what it wrote is part of what the run wrote. *)
Lemma reach_normal (fs : FS) (root prefix : str) (d : nat) (out : sink)
    k dir p :
  print_tree d fs root [] prefix = (out, Normal) ->
  visited fs root prefix k dir p ->
  exists d' sub,
    print_tree d' fs dir [] p = (sub, Normal)
    /\ incl sub out /\ (d' + k = d)%nat.
Proof.
  intros H Hv.
  induction Hv as [|k dir p names i e Hv IH Hls Hn Hdir].
  - exists d, out. split; [exact H|]. split; [apply incl_refl | lia].
  - destruct IH as (d' & sub & Hsub & Hincl & Hd).
    destruct d' as [|d']; [discriminate Hsub|].
    destruct (print_tree_blocks d' fs dir [] p sub names Hls Hsub)
      as [Hout HF].
    cbn [app] in Hout.
    pose proof (nth_error_enumerate_from _ _ _ 0%Z Hn) as Hin.
    cbn [Z.add] in Hin.
    rewrite Forall_forall in HF. specialize (HF _ Hin Hdir).
    cbn [fst snd] in HF.
    destruct (print_tree d' fs (join dir e) []
                (p ++ extension (Z.of_nat i)
                        (Z.of_nat (length (entries_of names)))))
      as [sub' r'] eqn:Esub.
    cbn [snd] in HF. subst r'.
    exists d', sub'. split; [exact Esub|]. split; [|lia].
    intros w Hw. apply Hincl. rewrite Hout.
    apply in_flat_map. exists (Z.of_nat i, e). split; [exact Hin|].
    unfold subtree_lines. cbn [fst snd]. rewrite Hdir, Esub.
    right. exact Hw.
Qed.

Lemma descends_visited (fs : FS) (root prefix0 : str) k dir :
  descends fs root k dir ->
  exists p, visited fs root prefix0 k dir p.
Proof.
  induction 1 as [|k dir names e Hd [p IH] Hls Hin Hdir].
  - exists prefix0. constructor.
  - apply In_nth_error in Hin as [i Hi].
    eexists. eapply visited_into; eauto.
Qed.

(** In a run that returns normally, every retained entry of every
    directory entered has its line in what was written. *)
Lemma entry_rendered (fs : FS) (root prefix : str) (d : nat) (out : sink)
    k dir names e :
  print_tree d fs root [] prefix = (out, Normal) ->
  descends fs root k dir ->
  listdir fs dir = Ok names ->
  In e (entries_of names) ->
  exists exts c,
    length exts = k /\ Forall is_extension exts /\ is_connector c
    /\ In (prefix ++ concat exts ++ c ++ e ++ entry_tail fs dir e) out.
Proof.
  intros H Hdesc Hls Hin.
  destruct (descends_visited fs root prefix k dir Hdesc) as [p Hv].
  destruct (reach_normal fs root prefix d out k dir p H Hv)
    as (d' & sub & Hsub & Hincl & _).
  destruct d' as [|d']; [discriminate Hsub|].
  apply visited_descends in Hv as [_ [exts [Hl [Hx ->]]]].
  apply in_split in Hin as [before [rest Hent]].
  destruct (entry_line_written d' fs dir [] (prefix ++ concat exts) sub
              names before rest e Hls Hent Hsub) as [o [Ho Hw]].
  cbn [app] in Ho. subst o.
  rewrite entry_line_eq, <- app_assoc in Hw.
  exists exts, (connector (Z.of_nat (length before))
                  (Z.of_nat (length (entries_of names)))).
  repeat split; auto using connector_is_connector.
Qed.

Lemma print_tree_from_empty (d : nat) (fs : FS) root file prefix file' r :
  print_tree d fs root file prefix = (file', r) ->
  exists out,
    file' = file ++ out /\ print_tree d fs root [] prefix = (out, r).
Proof.
  intros H. rewrite print_tree_frame in H. inversion H; subst.
  exists (fst (print_tree d fs root [] prefix)). split; [reflexivity|].
  destruct (print_tree d fs root [] prefix); reflexivity.
Qed.

(** X1: [print_tree] only appends to the sink: what the sink held
    stays in front, unchanged, and neither the lines appended nor the
    outcome depend on what it held. *)
Theorem sink_append_only (d : nat) (fs : FS) (root : str) (prefix : str)
    (file1 file2 : sink) :
  exists out r,
    print_tree d fs root file1 prefix = (file1 ++ out, r)
    /\ print_tree d fs root file2 prefix = (file2 ++ out, r)
    /\ firstn (length file1) (fst (print_tree d fs root file1 prefix))
       = file1.
Proof.
  exists (fst (print_tree d fs root [] prefix)),
         (snd (print_tree d fs root [] prefix)).
  split; [apply print_tree_frame|]. split; [apply print_tree_frame|].
  rewrite (print_tree_frame d fs root file1 prefix). cbn [fst].
  rewrite firstn_app, Nat.sub_diag, firstn_all. cbn [firstn].
  apply app_nil_r.
Qed.

(** X2: what a call that returns normally appends is, entry by entry
    in sorted order, the line of the entry followed at once by all the
    lines of the recursive call on it when it is a directory; each of
    these recursive calls returned normally. *)
Theorem normal_run_by_subtrees
    (d : nat) (fs : FS) (root : str) (file : sink) (prefix : str)
    (file' : sink) (names : list str) :
  listdir fs root = Ok names ->
  print_tree (S d) fs root file prefix = (file', Normal) ->
  let entries := entries_of names in
  let n := Z.of_nat (length entries) in
  file' =
  file ++ flat_map
            (fun ie =>
               entry_line fs root prefix n (fst ie) (snd ie)
               :: (if isdir fs (join root (snd ie))
                   then fst (print_tree d fs (join root (snd ie)) []
                               (prefix ++ extension (fst ie) n))
                   else []))
            (enumerate_from 0%Z entries)
  /\ forall i e,
       nth_error entries i = Some e ->
       isdir fs (join root e) = true ->
       snd (print_tree d fs (join root e) []
              (prefix ++ extension (Z.of_nat i) n)) = Normal.
Proof.
  intros Hls H entries n.
  destruct (print_tree_blocks d fs root file prefix file' names Hls H)
    as [Hout HF].
  split; [exact Hout|].
  intros i e Hn Hdir. rewrite Forall_forall in HF.
  pose proof (nth_error_enumerate_from _ _ _ 0%Z Hn) as Hin.
  cbn [Z.add] in Hin. exact (HF _ Hin Hdir).
Qed.

Lemma normal_run_by_subtrees_witness :
  fst (print_tree 3 scenario_fs (lit "root") [] []) =
  [] ++ flat_map
          (fun ie =>
             entry_line scenario_fs (lit "root") [] 3 (fst ie) (snd ie)
             :: (if isdir scenario_fs (join (lit "root") (snd ie))
                 then fst (print_tree 2 scenario_fs
                             (join (lit "root") (snd ie)) []
                             ([] ++ extension (fst ie) 3))
                 else []))
          (enumerate_from 0%Z [lit "a.txt"; lit "b.txt"; lit "sub"]).
Proof.
  destruct (normal_run_by_subtrees 2 scenario_fs (lit "root") [] []
              (fst (print_tree 3 scenario_fs (lit "root") [] []))
              [lit "sub"; lit "build"; lit "b.txt"; lit "X.class"; lit "a.txt"])
    as [H _]; [reflexivity | reflexivity | exact H].
Defined.

(** X3: in a run that returns normally no entry is skipped: every
    retained entry of every directory entered, [k] directories below
    the root, has its line in what was written, after the prefix and
    [k] extensions. *)
Theorem every_entry_rendered
    (d : nat) (fs : FS) (root : str) (file : sink) (prefix : str)
    (file' : sink) :
  print_tree d fs root file prefix = (file', Normal) ->
  exists out,
    file' = file ++ out
    /\ forall k dir names e,
         descends fs root k dir ->
         listdir fs dir = Ok names ->
         In e (entries_of names) ->
         exists exts c,
           length exts = k /\ Forall is_extension exts /\ is_connector c
           /\ In (prefix ++ concat exts ++ c ++ e ++ entry_tail fs dir e)
                 out.
Proof.
  intros H. apply print_tree_from_empty in H as [out [Hout H]].
  exists out. split; [exact Hout|].
  intros k dir names e Hdesc Hls Hin.
  eapply entry_rendered; eauto.
Qed.

Lemma every_entry_rendered_witness :
  exists out,
    fst (print_tree 3 scenario_fs (lit "root") [] []) = [] ++ out
    /\ forall k dir names e,
         descends scenario_fs (lit "root") k dir ->
         listdir scenario_fs dir = Ok names ->
         In e (entries_of names) ->
         exists exts c,
           length exts = k /\ Forall is_extension exts /\ is_connector c
           /\ In ([] ++ concat exts ++ c ++ e
                  ++ entry_tail scenario_fs dir e) out.
Proof.
  apply (every_entry_rendered 3 scenario_fs (lit "root") [] []
           (fst (print_tree 3 scenario_fs (lit "root") [] []))).
  reflexivity.
Defined.

(* ================================================================= *)
(** ** Further properties: the call stack *)

Lemma for_enumerate_mono {A}
    (body1 body2 : Z -> A -> sink -> sink * outcome) :
  (forall i e f f' r,
      body1 i e f = (f', r) -> r <> Raised RecursionError ->
      body2 i e f = (f', r)) ->
  forall l i file file' r,
    for_enumerate body1 i l file = (file', r) ->
    r <> Raised RecursionError ->
    for_enumerate body2 i l file = (file', r).
Proof.
  intros Hb. induction l as [|e l IH]; intros i file file' r H Hr;
    [exact H|].
  cbn [for_enumerate] in *.
  destruct (body1 i e file) as [f1 r1] eqn:E1.
  destruct r1 as [|x].
  - rewrite (Hb _ _ _ _ _ E1) by discriminate. eapply IH; eauto.
  - inversion H; subst. rewrite (Hb _ _ _ _ _ E1 Hr). reflexivity.
Qed.

Lemma print_tree_one_more_frame (fs : FS) (d : nat) :
  forall root file prefix file' r,
    print_tree d fs root file prefix = (file', r) ->
    r <> Raised RecursionError ->
    print_tree (S d) fs root file prefix = (file', r).
Proof.
  induction d as [|d IHd]; intros root file prefix file' r H Hr.
  - inversion H; subst. congruence.
  - cbn [print_tree] in H. cbn [print_tree].
    destruct (listdir fs root) as [names|code]; [|exact H].
    cbv zeta in *.
    eapply for_enumerate_mono; [|exact H|exact Hr].
    intros i e f f' r' Hv Hr'. unfold visit in *.
    destruct (isdir fs (join root e)); [|exact Hv].
    apply IHd; assumption.
Qed.

(** X5: room on the call stack beyond what a run needs changes
    nothing: a call that ends without [RecursionError] with room for
    [d] frames writes the same lines and ends the same way with room
    for any [d' >= d]. *)
Theorem more_stack_same_result
    (fs : FS) (d d' : nat) (root : str) (file : sink) (prefix : str)
    (file' : sink) (r : outcome) :
  print_tree d fs root file prefix = (file', r) ->
  r <> Raised RecursionError ->
  (d <= d')%nat ->
  print_tree d' fs root file prefix = (file', r).
Proof.
  intros H Hr Hle. induction Hle as [|d' Hle IH]; [exact H|].
  apply print_tree_one_more_frame; assumption.
Qed.

Lemma more_stack_same_result_witness :
  print_tree 1000 unreadable_fs (lit "r") [] []
  = ([connector_mid ++ lit "a/" ++ nl], Raised (OSError EACCES)).
Proof.
  apply (more_stack_same_result unreadable_fs 2 1000 (lit "r") [] []).
  - reflexivity.
  - discriminate.
  - repeat constructor.
Defined.

(* ================================================================= *)
(** ** Further properties: what a run reads *)

Lemma same_answers_loop (fs1 fs2 : FS) (d : nat) (root prefix : str)
    (names : list str) (file : sink) :
  listdir fs1 root = Ok names ->
  (forall q, asks fs1 (S d) root q -> same_answer fs1 fs2 q) ->
  (forall p f pre,
      (forall q, asks fs1 d p q -> same_answer fs1 fs2 q) ->
      print_tree d fs1 p f pre = print_tree d fs2 p f pre) ->
  let n := Z.of_nat (length (entries_of names)) in
  forall l before f,
    entries_of names = before ++ l ->
    for_enumerate (visit (print_tree d fs1) fs1 root prefix n) 0%Z before
      file = (f, Normal) ->
    for_enumerate (visit (print_tree d fs1) fs1 root prefix n)
      (Z.of_nat (length before)) l f
    = for_enumerate (visit (print_tree d fs2) fs2 root prefix n)
        (Z.of_nat (length before)) l f.
Proof.
  intros Hls Hsame IHd n.
  induction l as [|e l IHl]; intros before f Hent Hbefore; [reflexivity|].
  cbn [for_enumerate].
  assert (Hdir : isdir fs1 (join root e) = isdir fs2 (join root e)).
  { apply (Hsame (AskIsdir (join root e))).
    eapply asks_isdir; eauto. }
  assert (Hvisit :
    visit (print_tree d fs1) fs1 root prefix n (Z.of_nat (length before)) e f
    = visit (print_tree d fs2) fs2 root prefix n (Z.of_nat (length before))
        e f).
  { unfold visit, status. rewrite <- Hdir.
    destruct (isdir fs1 (join root e)) eqn:Edir.
    - apply IHd. intros q Hq. apply Hsame.
      eapply asks_below; eauto.
    - assert (Hsize : getsize fs1 (join root e) = getsize fs2 (join root e)).
      { apply (Hsame (AskSize (join root e))).
        eapply asks_size; eauto. }
      rewrite <- Hsize. reflexivity. }
  rewrite <- Hvisit.
  destruct (visit (print_tree d fs1) fs1 root prefix n
              (Z.of_nat (length before)) e f) as [f1 r1] eqn:Ev.
  destruct r1 as [|x]; [|reflexivity].
  replace (Z.of_nat (length before) + 1)%Z
    with (Z.of_nat (length (before ++ [e])))
    by (rewrite length_app; simpl; lia).
  apply IHl.
  - rewrite <- app_assoc. exact Hent.
  - rewrite for_enumerate_app, Hbefore. cbn [for_enumerate].
    rewrite Z.add_0_l, Ev. reflexivity.
Qed.

(** X6: a run reads the file system only where it goes: the listing
    of each directory it enters, [isdir] at each retained entry the loop
    reaches there, and [getsize] at each of these that is not a
    directory.  Two file systems that give the same answers to the
    questions the run over the first one puts give the same lines and
    the same outcome, whatever else they hold: below excluded entries,
    or in directories that come after the one where the run aborts. *)
Theorem reads_only_what_it_renders
    (fs1 fs2 : FS) (d : nat) (root : str) (file : sink) (prefix : str) :
  (forall q, asks fs1 d root q -> same_answer fs1 fs2 q) ->
  print_tree d fs1 root file prefix = print_tree d fs2 root file prefix.
Proof.
  revert root file prefix.
  induction d as [|d IHd]; intros root file prefix Hsame; [reflexivity|].
  pose proof (Hsame (AskList root) (asks_listing fs1 d root)) as Hl.
  cbn [same_answer] in Hl.
  cbn [print_tree]. rewrite <- Hl.
  destruct (listdir fs1 root) as [names|code] eqn:Hls; [|reflexivity].
  cbv zeta.
  apply (same_answers_loop fs1 fs2 d root prefix names file Hls Hsame
           (fun p f pre H => IHd p f pre H) (entries_of names) [] file);
    reflexivity.
Qed.

Lemma cut_short_same_answers (d : nat) (q : query) :
  asks (cut_short_fs [lit "x"]) d (lit "r") q ->
  same_answer (cut_short_fs [lit "x"]) (cut_short_fs [lit "y"; lit "z"]) q.
Proof.
  intros H.
  inversion H as
    [ d0 root0
    | d0 root0 names before e rest file prefix file' Hls Hent Hloop
    | d0 root0 names before e rest file prefix file' Hls Hent Hloop Hdir
    | d0 root0 names before e rest file prefix file' q0 Hls Hent Hloop Hdir
        Hq ];
    subst; try reflexivity;
    vm_compute in Hls; inversion Hls; subst names; clear Hls;
    change (entries_of [lit "a"; lit "c"]) with [lit "a"; lit "c"] in *;
    destruct before as [|b0 [|b1 [|b2 before]]];
    cbn [app] in Hent; inversion Hent; subst; clear Hent;
    try reflexivity; try discriminate Hdir.
  - inversion Hq; subst; try reflexivity;
      match goal with
      | Hx : listdir _ _ = Ok _ |- _ => vm_compute in Hx; discriminate Hx
      end.
  - destruct d0 as [|d0]; cbn in Hloop; discriminate Hloop.
Qed.

Lemma reads_only_what_it_renders_witness :
  print_tree 5 (cut_short_fs [lit "x"]) (lit "r") [] []
  = print_tree 5 (cut_short_fs [lit "y"; lit "z"]) (lit "r") [] [].
Proof.
  apply (reads_only_what_it_renders (cut_short_fs [lit "x"])
           (cut_short_fs [lit "y"; lit "z"]) 5 (lit "r") [] []).
  exact (cut_short_same_answers 5).
Defined.

Lemma same_up_to_status_refl (l : list str) : Forall2 same_up_to_status l l.
Proof. induction l; constructor; auto. left; reflexivity. Qed.

Lemma sizes_loop (fs1 fs2 : FS)
    (rec1 rec2 : str -> sink -> str -> sink * outcome)
    (root prefix : str) (n : Z) :
  (forall p, isdir fs1 p = isdir fs2 p) ->
  (forall p f1 f2 pre,
      Forall2 same_up_to_status f1 f2 ->
      Forall2 same_up_to_status (fst (rec1 p f1 pre)) (fst (rec2 p f2 pre))
      /\ snd (rec1 p f1 pre) = snd (rec2 p f2 pre)) ->
  forall l i f1 f2,
    Forall2 same_up_to_status f1 f2 ->
    Forall2 same_up_to_status
      (fst (for_enumerate (visit rec1 fs1 root prefix n) i l f1))
      (fst (for_enumerate (visit rec2 fs2 root prefix n) i l f2))
    /\ snd (for_enumerate (visit rec1 fs1 root prefix n) i l f1)
       = snd (for_enumerate (visit rec2 fs2 root prefix n) i l f2).
Proof.
  intros Hd Hrec. induction l as [|e l IHl]; intros i f1 f2 Hf.
  - simpl. auto.
  - cbn [for_enumerate].
    assert (Hv :
      Forall2 same_up_to_status
        (fst (visit rec1 fs1 root prefix n i e f1))
        (fst (visit rec2 fs2 root prefix n i e f2))
      /\ snd (visit rec1 fs1 root prefix n i e f1)
         = snd (visit rec2 fs2 root prefix n i e f2)).
    { unfold visit, write. rewrite <- Hd.
      destruct (isdir fs1 (join root e)).
      - apply Hrec. apply Forall2_app; [exact Hf|].
        constructor; [left; reflexivity | constructor].
      - cbn [fst snd]. split; [|reflexivity].
        apply Forall2_app; [exact Hf|].
        constructor; [|constructor].
        right. exists (prefix ++ connector i n ++ e ++ lit " "),
                      (status fs1 (join root e)),
                      (status fs2 (join root e)).
        unfold file_line. rewrite <- !app_assoc.
        auto using status_is_status. }
    destruct (visit rec1 fs1 root prefix n i e f1) as [g1 r1].
    destruct (visit rec2 fs2 root prefix n i e f2) as [g2 r2].
    cbn [fst snd] in Hv. destruct Hv as [Hg ->].
    destruct r2; [apply IHl; exact Hg | cbn [fst snd]; auto].
Qed.

Lemma sizes_related (fs1 fs2 : FS) :
  (forall p, listdir fs1 p = listdir fs2 p) ->
  (forall p, isdir fs1 p = isdir fs2 p) ->
  forall d root f1 f2 prefix,
    Forall2 same_up_to_status f1 f2 ->
    Forall2 same_up_to_status
      (fst (print_tree d fs1 root f1 prefix))
      (fst (print_tree d fs2 root f2 prefix))
    /\ snd (print_tree d fs1 root f1 prefix)
       = snd (print_tree d fs2 root f2 prefix).
Proof.
  intros Hl Hd. induction d as [|d IHd]; intros root f1 f2 prefix Hf.
  - simpl. auto.
  - cbn [print_tree]. rewrite <- Hl.
    destruct (listdir fs1 root) as [names|code]; [|simpl; auto].
    cbv zeta. apply sizes_loop; auto.
Qed.

(** X7: the sizes of the files decide the status marks and nothing
    else: over two file systems with the same listings and the same
    directories, a run writes the same number of lines, line by line
    equal or different in the status mark only, and ends the same
    way. *)
Theorem sizes_change_status_only
    (fs1 fs2 : FS) (d : nat) (root : str) (file : sink) (prefix : str) :
  (forall p, listdir fs1 p = listdir fs2 p) ->
  (forall p, isdir fs1 p = isdir fs2 p) ->
  exists out1 out2 r,
    print_tree d fs1 root file prefix = (file ++ out1, r)
    /\ print_tree d fs2 root file prefix = (file ++ out2, r)
    /\ length out1 = length out2
    /\ Forall2 same_up_to_status out1 out2.
Proof.
  intros Hl Hd.
  destruct (sizes_related fs1 fs2 Hl Hd d root [] [] prefix
              (Forall2_nil _)) as [HF Hr].
  exists (fst (print_tree d fs1 root [] prefix)),
         (fst (print_tree d fs2 root [] prefix)),
         (snd (print_tree d fs1 root [] prefix)).
  split; [apply print_tree_frame|].
  split; [rewrite Hr; apply print_tree_frame|].
  split; [eapply Forall2_length; exact HF | exact HF].
Qed.

Lemma sizes_change_status_only_witness :
  exists out1 out2 r,
    print_tree 5 scenario_fs (lit "root") [] [] = ([] ++ out1, r)
    /\ print_tree 5 resized_fs (lit "root") [] [] = ([] ++ out2, r)
    /\ length out1 = length out2
    /\ Forall2 same_up_to_status out1 out2.
Proof.
  apply (sizes_change_status_only scenario_fs resized_fs 5 (lit "root")
           [] []); intros p; reflexivity.
Defined.

(* ================================================================= *)
(** ** Further properties: lines of text *)

Lemma entry_tail_one_nl (fs : FS) (root e : str) :
  exists t, entry_tail fs root e = t ++ nl /\ ~ In 10%N t.
Proof.
  unfold entry_tail.
  destruct (isdir fs (join root e)).
  - exists (lit "/"). split; [reflexivity|].
    simpl. intros [H | []]; discriminate H.
  - exists (lit " " ++ status fs (join root e)). split.
    + rewrite <- app_assoc. reflexivity.
    + destruct (status_is_status fs (join root e)) as [-> | [-> | ->]];
        simpl; intros H;
        repeat (destruct H as [H | H]; [discriminate H|]); exact H.
Qed.

Lemma extensions_no_nl (exts : list str) :
  Forall is_extension exts -> ~ In 10%N (concat exts).
Proof.
  induction 1 as [|x exts Hx _ IH]; [intros []|].
  cbn [concat]. rewrite in_app_iff. intros [H | H]; [|exact (IH H)].
  destruct Hx as [-> | ->]; simpl in H;
    repeat (destruct H as [H | H]; [discriminate H|]); exact H.
Qed.

Lemma connector_no_nl (c : str) : is_connector c -> ~ In 10%N c.
Proof.
  intros [-> | ->] H; simpl in H;
    repeat (destruct H as [H | H]; [discriminate H|]); exact H.
Qed.

(** X8: every string written ends with a line feed; when no name of
    the listings and not the prefix holds a line feed, it holds no other
    one, so that each write is exactly one line of the text. *)
Theorem one_text_line_per_write
    (d : nat) (fs : FS) (root : str) (file : sink) (prefix : str)
    (file' : sink) (r : outcome) :
  print_tree d fs root file prefix = (file', r) ->
  exists out,
    file' = file ++ out
    /\ (forall w, In w out -> exists body, w = body ++ nl)
    /\ ((forall p names e,
           listdir fs p = Ok names -> In e names -> ~ In 10%N e) ->
        ~ In 10%N prefix ->
        forall w body, In w out -> w = body ++ nl -> ~ In 10%N body).
Proof.
  intros H.
  apply print_tree_lines in H as [out [-> Hout]].
  exists out. split; [reflexivity|].
  rewrite Forall_forall in Hout.
  assert (Hshape : forall w, In w out ->
    exists dir names i e exts t,
      listdir fs dir = Ok names
      /\ nth_error (entries_of names) i = Some e
      /\ Forall is_extension exts
      /\ ~ In 10%N t
      /\ w = ((prefix ++ concat exts)
              ++ connector (Z.of_nat i)
                   (Z.of_nat (length (entries_of names)))
              ++ e ++ t) ++ nl).
  { intros w Hw.
    destruct (Hout w Hw)
      as (k & dir & p & names & i & e & Hv & Hls & Hn & ->).
    apply visited_descends in Hv as [_ [exts [_ [Hx ->]]]].
    destruct (entry_tail_one_nl fs dir e) as [t [Ht Hnt]].
    exists dir, names, i, e, exts, t.
    repeat split; auto.
    rewrite entry_line_eq, Ht, <- !app_assoc. reflexivity. }
  split.
  - intros w Hw.
    destruct (Hshape w Hw) as (dir & names & i & e & exts & t & _ & _ & _
                               & _ & ->).
    eauto.
  - intros Hnames Hprefix w body Hw Hbody.
    destruct (Hshape w Hw) as (dir & names & i & e & exts & t & Hls & Hn
                               & Hx & Hnt & ->).
    apply app_inv_tail in Hbody. subst body.
    rewrite !in_app_iff. intros [[Hin | Hin] | [Hin | [Hin | Hin]]].
    + exact (Hprefix Hin).
    + exact (extensions_no_nl exts Hx Hin).
    + exact (connector_no_nl _ (connector_is_connector _ _) Hin).
    + apply nth_error_In in Hn. apply entries_of_In in Hn as [Hn _].
      exact (Hnames dir names e Hls Hn Hin).
    + exact (Hnt Hin).
Qed.

Lemma scenario_names_no_nl :
  forall p names e,
    listdir scenario_fs p = Ok names -> In e names -> ~ In 10%N e.
Proof.
  intros p names e Hls Hin. cbn in Hls.
  repeat match type of Hls with
         | context [str_eqb p ?q] => destruct (str_eqb p q)
         end;
    inversion Hls; subst names;
    repeat (destruct Hin as [<- | Hin];
            [vm_compute; intros H;
             repeat (destruct H as [H | H]; [discriminate H|]); exact H|]);
    contradiction.
Qed.

Lemma one_text_line_per_write_witness :
  exists out,
    fst (print_tree 5 scenario_fs (lit "root") [] []) = [] ++ out
    /\ (forall w, In w out -> exists body, w = body ++ nl)
    /\ (forall w body, In w out -> w = body ++ nl -> ~ In 10%N body).
Proof.
  destruct (one_text_line_per_write 5 scenario_fs (lit "root") [] []
              (fst (print_tree 5 scenario_fs (lit "root") [] []))
              (snd (print_tree 5 scenario_fs (lit "root") [] [])))
    as [out [H1 [H2 H3]]]; [reflexivity|].
  exists out. split; [exact H1|]. split; [exact H2|].
  apply H3; [exact scenario_names_no_nl | intros []].
Defined.

(* ================================================================= *)
(** ** Further properties: the report inside the tree it reports *)

Lemma endswith_docs (a : str) : endswith (a ++ lit "docs") (lit "/") = false.
Proof.
  destruct (endswith (a ++ lit "docs") (lit "/")) eqn:E; [|reflexivity].
  apply endswith_iff in E as [stem E].
  apply (f_equal (@rev N)) in E. rewrite !rev_app_distr in E.
  simpl in E. discriminate E.
Qed.

Lemma join_docs_plain (root : str) :
  join root (lit "docs") =
  root ++ (if str_eqb root [] || endswith root (lit "/") then []
           else lit "/") ++ lit "docs".
Proof.
  unfold join. change (startswith (lit "docs") (lit "/")) with false.
  cbv iota. destruct (str_eqb root [] || endswith root (lit "/"));
    reflexivity.
Qed.

Lemma join_after_docs (root sep : str) :
  join (root ++ sep ++ lit "docs") (lit "project_tree.txt")
  = root ++ sep ++ lit "docs/project_tree.txt".
Proof.
  unfold join.
  change (startswith (lit "project_tree.txt") (lit "/")) with false.
  cbv iota.
  rewrite (app_assoc root sep (lit "docs")), endswith_docs, orb_false_r.
  assert (Hne : str_eqb ((root ++ sep) ++ lit "docs") [] = false).
  { destruct (root ++ sep); reflexivity. }
  rewrite Hne, <- !app_assoc. reflexivity.
Qed.

Lemma join_docs_project_tree (root : str) :
  join (join root (lit "docs")) (lit "project_tree.txt")
  = join (join root (lit "docs/")) (lit "project_tree.txt").
Proof.
  rewrite join_docs, join_project_tree, join_docs_plain, join_after_docs.
  reflexivity.
Qed.

(** X10: the report lies inside the tree it reports: the path at
    which the traversal looks up the entry [project_tree.txt] of the
    entry [docs] of the root is the path [main] writes to.  So in a run
    that ends normally, when the listings show [docs/] and
    [project_tree.txt] in it, the report holds a line for itself, with
    the status the file being written has when the traversal reaches
    it. *)
Theorem report_lists_itself (env : Env) :
  let root := root_arg (argv env) in
  let outfile := join (join root (lit "docs/")) (lit "project_tree.txt") in
  join (join root (lit "docs")) (lit "project_tree.txt") = outfile
  /\ forall names names',
       snd (main env) = Normal ->
       listdir (fs env) root = Ok names ->
       In (lit "docs") names ->
       isdir (fs env) (join root (lit "docs")) = true ->
       listdir (fs env) (join root (lit "docs")) = Ok names' ->
       In (lit "project_tree.txt") names' ->
       isdir (fs env) outfile = false ->
       exists head,
         In (head ++ lit "project_tree.txt" ++ lit " "
             ++ status (fs env) outfile ++ nl)
            (written (fst (main env))).
Proof.
  intros root outfile. split; [apply join_docs_project_tree|].
  intros names names' Hnormal Hls Hdocs Hdir Hls' Hfile Hnotdir.
  rewrite main_eq_shape in Hnormal |- *.
  unfold main_shape in *. cbv zeta in *. fold root in Hnormal |- *.
  destruct (makedirs env _) as [[]|code]; [|discriminate Hnormal].
  destruct (open_w env _) as [[]|code]; [|discriminate Hnormal].
  cbn [fst snd] in Hnormal |- *.
  destruct (print_tree (recursion_limit env) (fs env) root [] [])
    as [out r] eqn:Etree.
  cbn [fst snd] in Hnormal |- *. subst r.
  assert (Hd : descends (fs env) root 1 (join root (lit "docs"))).
  { eapply descends_into; [constructor | exact Hls | | exact Hdir].
    apply entries_of_In. split; [exact Hdocs | reflexivity]. }
  assert (Hin : In (lit "project_tree.txt") (entries_of names')).
  { apply entries_of_In. split; [exact Hfile | reflexivity]. }
  destruct (entry_rendered (fs env) root [] (recursion_limit env) out 1
              (join root (lit "docs")) names' (lit "project_tree.txt")
              Etree Hd Hls' Hin) as (exts & c & _ & _ & _ & Hw).
  unfold entry_tail in Hw.
  rewrite join_docs_project_tree in Hw. fold outfile in Hw.
  rewrite Hnotdir in Hw.
  exists (concat exts ++ c).
  cbn [app written]. right. right.
  rewrite written_map_Write. apply in_or_app. left.
  cbn [app] in Hw. rewrite <- app_assoc. exact Hw.
Qed.

Lemma report_lists_itself_witness :
  exists head,
    In (head ++ lit "project_tree.txt" ++ lit " "
        ++ status docs_fs (lit "root/docs/project_tree.txt") ++ nl)
       (written (fst (main (sample_env docs_fs sample_time)))).
Proof.
  destruct (report_lists_itself (sample_env docs_fs sample_time))
    as [_ H].
  apply (H [lit "docs"; lit "a.txt"] [lit "project_tree.txt"]);
    try reflexivity.
  - left; reflexivity.
  - left; reflexivity.
Defined.
